(** * Camera pose construction of [viz_utils/camera_utils.py]

    A shallow embedding of the four functions of the module
    ([get_origin], [get_forward_vector], [create_cam2world_matrix],
    [normalize_vecs]) and of [LookAtPoseSampler.sample].

    Numbers.  A tensor element is an [fval]: a real number or one of the
    three IEEE special values.  Arithmetic on finite values is exact real
    arithmetic (no rounding, no overflow); the special values follow the
    IEEE rules ([0/0 = NaN], [x/0 = +-Inf], [0 * Inf = NaN], ...).  The sign
    of zero is not tracked: every divisor of the module is a norm or the
    constant [math.pi], so a zero divisor is always [+0].

    Tensors.  A tensor is the nested list [Tensor.tolist()] would give:
    rank 0 is one element, rank 1 a list, rank 2 a list of rows, rank 3 a
    list of matrices.  An operation that PyTorch rejects (shapes that do
    not broadcast, a cross product over a dimension that is not 3) raises
    [RuntimeError]; a failed [assert] raises [AssertionError]. *)

From Stdlib Require Import Reals Lra List Bool Arith Lia.
Import ListNotations.
Local Open Scope R_scope.

(** ** Elements *)

Inductive fval : Type :=
| Fin (x : R)
| PInf
| NInf
| NaN.

Definition fneg (a : fval) : fval :=
  match a with
  | Fin x => Fin (- x)
  | PInf => NInf
  | NInf => PInf
  | NaN => NaN
  end.

Definition fadd (a b : fval) : fval :=
  match a, b with
  | NaN, _ | _, NaN => NaN
  | Fin x, Fin y => Fin (x + y)
  | PInf, NInf | NInf, PInf => NaN
  | PInf, _ | _, PInf => PInf
  | NInf, _ | _, NInf => NInf
  end.

Definition fsub (a b : fval) : fval := fadd a (fneg b).

(** The infinity of the sign of [x], or [NaN] when [x] is zero. *)
Definition inf_of_sign (x : R) (pos neg : fval) : fval :=
  if Req_dec_T x 0 then NaN
  else if Rlt_dec 0 x then pos else neg.

Definition fmul (a b : fval) : fval :=
  match a, b with
  | NaN, _ | _, NaN => NaN
  | Fin x, Fin y => Fin (x * y)
  | Fin x, PInf | PInf, Fin x => inf_of_sign x PInf NInf
  | Fin x, NInf | NInf, Fin x => inf_of_sign x NInf PInf
  | PInf, PInf | NInf, NInf => PInf
  | PInf, NInf | NInf, PInf => NInf
  end.

Definition fdiv (a b : fval) : fval :=
  match a, b with
  | NaN, _ | _, NaN => NaN
  | Fin x, Fin y =>
      if Req_dec_T y 0 then inf_of_sign x PInf NInf else Fin (x / y)
  | Fin _, (PInf | NInf) => Fin 0
  | PInf, Fin y => if Rlt_dec y 0 then NInf else PInf
  | NInf, Fin y => if Rlt_dec y 0 then PInf else NInf
  | (PInf | NInf), (PInf | NInf) => NaN
  end.

Definition fsqrt (a : fval) : fval :=
  match a with
  | Fin x => if Rlt_dec x 0 then NaN else Fin (sqrt x)
  | PInf => PInf
  | NInf | NaN => NaN
  end.

Definition fsin (a : fval) : fval :=
  match a with Fin x => Fin (sin x) | _ => NaN end.

Definition fcos (a : fval) : fval :=
  match a with Fin x => Fin (cos x) | _ => NaN end.

Definition facos (a : fval) : fval :=
  match a with
  | Fin x =>
      if Rle_dec (-1) x then if Rle_dec x 1 then Fin (acos x) else NaN
      else NaN
  | _ => NaN
  end.

(** [torch.clamp(v, lo, hi)] is [min(max(v, lo), hi)] and keeps [NaN]. *)
Definition fclamp (lo hi : R) (a : fval) : fval :=
  match a with
  | Fin x => Fin (Rmin (Rmax x lo) hi)
  | PInf => Fin hi
  | NInf => Fin (Rmin lo hi)
  | NaN => NaN
  end.

(** ** Exceptions *)

Inductive exn : Type := RuntimeError | AssertionError.

Inductive result (A : Type) : Type :=
| Ok (a : A)
| Raise (e : exn).

Arguments Ok {A} a.
Arguments Raise {A} e.

Definition bind {A B : Type} (c : result A) (k : A -> result B) : result B :=
  match c with
  | Ok a => k a
  | Raise e => Raise e
  end.

Notation "x <- c ;; k" := (bind c (fun x => k))
  (at level 61, c at next level, right associativity).

Fixpoint mapM {A B : Type} (f : A -> result B) (l : list A) : result (list B) :=
  match l with
  | [] => Ok []
  | a :: l' => b <- f a ;; bs <- mapM f l' ;; Ok (b :: bs)
  end.

(** ** Broadcasting along one dimension

    Two sizes are compatible when they are equal or one of them is 1. *)

Definition broadcast2 {A B C : Type} (f : A -> B -> result C)
    (xs : list A) (ys : list B) : result (list C) :=
  match xs, ys with
  | [x], _ => mapM (f x) ys
  | _, [y] => mapM (fun x => f x y) xs
  | _, _ =>
      if Nat.eqb (length xs) (length ys)
      then mapM (fun p => f (fst p) (snd p)) (combine xs ys)
      else Raise RuntimeError
  end.

(** ** Rank 0 or 1 quantities: angles and radius

    [S0 x] is a Python number or a 0-dim tensor, [S1 xs] a 1-dim tensor.
    [get_origin] passes its two angles through [torch.tensor], so for an
    angle [S1 xs] is also a Python list of numbers.  The radius is used as
    it is given: it is a number or a tensor, and a Python list as radius
    (a [TypeError] at [radius * torch.sin(phi)]) is not a value of this
    type. *)

Inductive scalars : Type :=
| S0 (x : fval)
| S1 (xs : list fval).

Definition smap (f : fval -> fval) (s : scalars) : scalars :=
  match s with
  | S0 x => S0 (f x)
  | S1 xs => S1 (map f xs)
  end.

Definition sbin (f : fval -> fval -> fval) (a b : scalars) : result scalars :=
  match a, b with
  | S0 x, S0 y => Ok (S0 (f x y))
  | S0 x, S1 ys => Ok (S1 (map (f x) ys))
  | S1 xs, S0 y => Ok (S1 (map (fun x => f x y) xs))
  | S1 xs, S1 ys =>
      r <- broadcast2 (fun x y => Ok (f x y)) xs ys ;; Ok (S1 r)
  end.

Fixpoint list_set {A : Type} (i : nat) (x : A) (l : list A) : list A :=
  match l, i with
  | [], _ => []
  | _ :: l', O => x :: l'
  | a :: l', S i' => a :: list_set i' x l'
  end.

(** [t[i:i+1] = rhs] on a 1-dim tensor [t] with [i < len(t)]: the right-hand
    side must broadcast to shape (1,). *)
Definition setitem_slice1 (t : list fval) (i : nat) (rhs : scalars)
    : result (list fval) :=
  match rhs with
  | S0 x => Ok (list_set i x t)
  | S1 [x] => Ok (list_set i x t)
  | S1 _ => Raise RuntimeError
  end.

(** ** [get_origin]

    [horizontal_mean] and [vertical_mean] are the arguments after
    [torch.tensor(...)]; [radius] is the number or tensor given. *)

Definition eps : R := 1 / 100000.

Definition get_origin (horizontal_mean vertical_mean radius : scalars)
    : result (list fval) :=
  let h := horizontal_mean in
  let v := vertical_mean in
  let v := smap (fclamp eps (PI - eps)) v in
  let theta := h in
  let v := smap (fun x => fdiv x (Fin PI)) v in
  let phi := smap facos (smap (fun x => fsub (Fin 1) (fmul (Fin 2) x)) v) in
  let camera_origins := [Fin 0; Fin 0; Fin 0] in
  let pi_minus_theta := smap (fsub (Fin PI)) theta in
  rs <- sbin fmul radius (smap fsin phi) ;;
  x <- sbin fmul rs (smap fcos pi_minus_theta) ;;
  camera_origins <- setitem_slice1 camera_origins 0 x ;;
  rs <- sbin fmul radius (smap fsin phi) ;;
  z <- sbin fmul rs (smap fsin pi_minus_theta) ;;
  camera_origins <- setitem_slice1 camera_origins 2 z ;;
  y <- sbin fmul radius (smap fcos phi) ;;
  camera_origins <- setitem_slice1 camera_origins 1 y ;;
  Ok camera_origins.

(** The Cartesian mapping as the specification words it, on one angle
    pair and one radius. *)
Definition spherical_point (theta v r : fval) : list fval :=
  let vc := fclamp eps (PI - eps) v in
  let phi := facos (fsub (Fin 1) (fmul (Fin 2) (fdiv vc (Fin PI)))) in
  [ fmul (fmul r (fsin phi)) (fcos (fsub (Fin PI) theta));
    fmul r (fcos phi);
    fmul (fmul r (fsin phi)) (fsin (fsub (Fin PI) theta)) ].

(** ** [normalize_vecs] on one vector *)

Definition fsum (l : list fval) : fval := fold_right fadd (Fin 0) l.

(** [torch.norm(v, dim=-1)]: the Euclidean norm of one row. *)
Definition norm (v : list fval) : fval :=
  fsqrt (fsum (map (fun x => fmul x x) v)).

(** [v / torch.norm(v, dim=-1, keepdim=True)] on one row. *)
Definition normalize_row (v : list fval) : list fval :=
  map (fun x => fdiv x (norm v)) v.

(** ** Rank 1 or 2 quantities: positions and directions

    [V1 v] is one vector (shape (k,)), [V2 rows] a batch of vectors (shape
    (N,k)), one row per batch element. *)

Inductive vecs : Type :=
| V1 (v : list fval)
| V2 (rows : list (list fval)).

(** A row-wise binary operation, broadcast over the batch dimension. *)
Definition vbin (rowop : list fval -> list fval -> result (list fval))
    (a b : vecs) : result vecs :=
  match a, b with
  | V1 x, V1 y => r <- rowop x y ;; Ok (V1 r)
  | V1 x, V2 ys => r <- mapM (rowop x) ys ;; Ok (V2 r)
  | V2 xs, V1 y => r <- mapM (fun x => rowop x y) xs ;; Ok (V2 r)
  | V2 xs, V2 ys => r <- broadcast2 rowop xs ys ;; Ok (V2 r)
  end.

Definition vmap (rowop : list fval -> list fval) (a : vecs) : vecs :=
  match a with
  | V1 x => V1 (rowop x)
  | V2 xs => V2 (map rowop xs)
  end.

Definition sub_row (x y : list fval) : result (list fval) :=
  broadcast2 (fun a b => Ok (fsub a b)) x y.

Definition vsub : vecs -> vecs -> result vecs := vbin sub_row.

Definition vneg : vecs -> vecs := vmap (map fneg).

Definition normalize_vecs (vectors : vecs) : vecs := vmap normalize_row vectors.

(** [torch.cross(a, b, dim=-1)] on one row: defined on 3-vectors only. *)
Definition cross_row (a b : list fval) : result (list fval) :=
  match a, b with
  | [a1; a2; a3], [b1; b2; b3] =>
      Ok [ fsub (fmul a2 b3) (fmul a3 b2);
           fsub (fmul a3 b1) (fmul a1 b3);
           fsub (fmul a1 b2) (fmul a2 b1) ]
  | _, _ => Raise RuntimeError
  end.

Definition cross : vecs -> vecs -> result vecs := vbin cross_row.

(** Expanding one dimension to size [n]: the size is [n] already, or it is 1. *)
Definition expand_list {A : Type} (l : list A) (n : nat) : result (list A) :=
  if Nat.eqb (length l) n then Ok l
  else match l with
       | [x] => Ok (repeat x n)
       | _ => Raise RuntimeError
       end.

(** [a.expand_as(b)]: dimensions of size 1 are repeated, a tensor cannot be
    expanded to fewer dimensions. *)
Definition expand_as (a b : vecs) : result vecs :=
  match a, b with
  | V1 u, V1 f => r <- expand_list u (length f) ;; Ok (V1 r)
  | V1 u, V2 fs => r <- mapM (fun f => expand_list u (length f)) fs ;; Ok (V2 r)
  | V2 us, V2 fs =>
      us' <- expand_list us (length fs) ;;
      r <- mapM (fun p => expand_list (fst p) (length (snd p))) (combine us' fs) ;;
      Ok (V2 r)
  | V2 _, V1 _ => Raise RuntimeError
  end.

(** [t.shape[0]] *)
Definition shape0 (a : vecs) : nat :=
  match a with
  | V1 v => length v
  | V2 rows => length rows
  end.

(** ** [get_forward_vector] *)

Definition get_forward_vector (lookat_position : vecs)
    (horizontal_mean vertical_mean radius : scalars)
    (camera_origins : option vecs) : result vecs :=
  camera_origins <-
    match camera_origins with
    | None => o <- get_origin horizontal_mean vertical_mean radius ;; Ok (V1 o)
    | Some c => Ok c
    end ;;
  d <- vsub lookat_position camera_origins ;;
  Ok (normalize_vecs d).

(** ** Matrices *)

Definition matrix : Type := list (list fval).

Definition eye (n : nat) : matrix :=
  map (fun i => map (fun j => if Nat.eqb i j then Fin 1 else Fin 0) (seq 0 n))
      (seq 0 n).

Fixpoint zip3 (a b c : list fval) : list (list fval) :=
  match a, b, c with
  | x :: a', y :: b', z :: c' => [x; y; z] :: zip3 a' b' c'
  | _, _, _ => []
  end.

(** [torch.stack((a, b, c), axis=-1)] on one row each: the three tensors
    must have the same size; entry [i][j] is component [i] of tensor [j]. *)
Definition stack_row (a b c : list fval) : result matrix :=
  if Nat.eqb (length a) (length b) && Nat.eqb (length b) (length c)
  then Ok (zip3 a b c)
  else Raise RuntimeError.

Fixpoint stack_rows (a b c : list (list fval)) : result (list matrix) :=
  match a, b, c with
  | [], [], [] => Ok []
  | x :: a', y :: b', z :: c' =>
      m <- stack_row x y z ;; ms <- stack_rows a' b' c' ;; Ok (m :: ms)
  | _, _, _ => Raise RuntimeError
  end.

(** The result of [torch.stack] has rank 2 or 3. *)
Inductive stacked : Type :=
| M2 (m : matrix)
| M3 (ms : list matrix).

Definition stack (a b c : vecs) : result stacked :=
  match a, b, c with
  | V1 x, V1 y, V1 z => m <- stack_row x y z ;; Ok (M2 m)
  | V2 xs, V2 ys, V2 zs => ms <- stack_rows xs ys zs ;; Ok (M3 ms)
  | _, _, _ => Raise RuntimeError
  end.

(** Overwrite the first [length new] entries of [old]. *)
Definition set_prefix {A : Type} (new old : list A) : list A :=
  new ++ skipn (length new) old.

(** [m[:3, :3] = blk] for a 3x3 [blk]. *)
Fixpoint set_block (blk m : matrix) : matrix :=
  match blk, m with
  | b :: blk', r :: m' => set_prefix b r :: set_block blk' m'
  | _, _ => m
  end.

(** [blk] broadcast to shape (3,3). *)
Definition expand_block (blk : matrix) : result matrix :=
  blk' <- expand_list blk 3 ;;
  mapM (fun r => expand_list r 3) blk'.

(** [ms[:, :3, :3] = st] *)
Definition setitem_block (ms : list matrix) (st : stacked) : result (list matrix) :=
  match st with
  | M2 blk => blk' <- expand_block blk ;; Ok (map (set_block blk') ms)
  | M3 blks =>
      blks' <- expand_list blks (length ms) ;;
      blks'' <- mapM expand_block blks' ;;
      Ok (map (fun p => set_block (fst p) (snd p)) (combine blks'' ms))
  end.

(** [m[:3, j] = o] for a 3-vector [o]. *)
Fixpoint set_col (j : nat) (o : list fval) (m : matrix) : matrix :=
  match o, m with
  | x :: o', r :: m' => list_set j x r :: set_col j o' m'
  | _, _ => m
  end.

(** [ms[:, :3, 3] = origin] *)
Definition setitem_col3 (ms : list matrix) (origin : vecs) : result (list matrix) :=
  match origin with
  | V1 o => o' <- expand_list o 3 ;; Ok (map (set_col 3 o') ms)
  | V2 os =>
      os' <- expand_list os (length ms) ;;
      os'' <- mapM (fun o => expand_list o 3) os' ;;
      Ok (map (fun p => set_col 3 (fst p) (snd p)) (combine os'' ms))
  end.

Definition dot (a b : list fval) : fval :=
  fsum (map (fun p => fmul (fst p) (snd p)) (combine a b)).

Definition column (j : nat) (m : matrix) : list fval :=
  map (fun r => nth j r (Fin 0)) m.

Definition matmul (a b : matrix) : matrix :=
  map (fun row => map (fun j => dot row (column j b)) (seq 0 (length (hd [] b)))) a.

(** [a @ b] on two batches of the same size. *)
Definition bmm (a b : list matrix) : list matrix :=
  map (fun p => matmul (fst p) (snd p)) (combine a b).

(** [t.shape[1:] == (4, 4)] *)
Definition trailing_4x4 (t : list matrix) : bool :=
  forallb (fun m => Nat.eqb (length m) 4 && forallb (fun r => Nat.eqb (length r) 4) m) t.

(** ** [create_cam2world_matrix]

    [.float()] and [.to(device)] do not change the values and are left
    out. *)

Definition default_up_vector : vecs := V1 [Fin 0; Fin (-1); Fin 0].

Definition create_cam2world_matrix (forward_vector origin up_vector : vecs)
    : result (list matrix) :=
  let forward_vector := normalize_vecs forward_vector in
  up_vector <- expand_as up_vector forward_vector ;;
  c <- cross up_vector forward_vector ;;
  let right_vector := vneg (normalize_vecs c) in
  c <- cross forward_vector right_vector ;;
  let up_vector := normalize_vecs c in
  let rotation_matrix := repeat (eye 4) (shape0 forward_vector) in
  st <- stack right_vector up_vector forward_vector ;;
  rotation_matrix <- setitem_block rotation_matrix st ;;
  let translation_matrix := repeat (eye 4) (shape0 forward_vector) in
  translation_matrix <- setitem_col3 translation_matrix origin ;;
  let cam2world := bmm translation_matrix rotation_matrix in
  if trailing_4x4 cam2world then Ok cam2world else Raise AssertionError.

(** ** [LookAtPoseSampler.sample] *)

Inductive device : Type := Cpu | Cuda (index : nat).

(** [t.to(device)]: a relocation, the values are unchanged. *)
Definition to_device {A : Type} (t : A) (d : device) : A := t.

Definition sample (horizontal_mean vertical_mean : scalars)
    (lookat_position : vecs) (radius : scalars) (up_vector : vecs)
    (dev : device) : result (list matrix) :=
  camera_origins <- get_origin horizontal_mean vertical_mean radius ;;
  forward_vectors <-
    get_forward_vector lookat_position horizontal_mean vertical_mean radius
      (Some (V1 camera_origins)) ;;
  m <- create_cam2world_matrix forward_vectors (V1 camera_origins) up_vector ;;
  Ok (to_device m dev).

(** ** One pose, as the specification describes it

    The per-element algorithm of the Basis/Matrix Builder: normalize the
    forward vector, [right = -normalize(cross(up_hint, forward))],
    [up = normalize(cross(forward, right))], the rotation has the columns
    (right, up, forward), and the result is translation times rotation.
    The theorems below relate [create_cam2world_matrix] to it row by row. *)

Definition cross3 (a b : list fval) : list fval :=
  match cross_row a b with
  | Ok c => c
  | Raise _ => []
  end.

Definition right_of (forward up_hint : list fval) : list fval :=
  map fneg (normalize_row (cross3 up_hint (normalize_row forward))).

Definition up_of (forward up_hint : list fval) : list fval :=
  normalize_row (cross3 (normalize_row forward) (right_of forward up_hint)).

Definition rotation_of (forward up_hint : list fval) : matrix :=
  set_block
    (zip3 (right_of forward up_hint) (up_of forward up_hint) (normalize_row forward))
    (eye 4).

Definition translation_of (origin : list fval) : matrix :=
  set_col 3 origin (eye 4).

Definition pose_matrix (forward origin up_hint : list fval) : matrix :=
  matmul (translation_of origin) (rotation_of forward up_hint).

(** Component-wise difference of two vectors of the same size. *)
Definition row_sub (a b : list fval) : list fval :=
  map (fun p => fsub (fst p) (snd p)) (combine a b).

(** The look direction of one target from one origin. *)
Definition forward_of (target origin : list fval) : list fval :=
  normalize_row (row_sub target origin).

(** ** Observations on a 4x4 matrix *)

(** The upper-left 3x3 block. *)
Definition rotation_block (m : matrix) : matrix :=
  firstn 3 (map (firstn 3) m).

(** Rows 0-2 of column 3. *)
Definition translation_column (m : matrix) : list fval :=
  firstn 3 (column 3 m).


(** Matrix times vector. *)
Definition matvec (m : matrix) (v : list fval) : list fval :=
  map (fun row => dot row v) m.

(** Determinant of a 3x3 matrix, by expansion along the first row. *)
Definition det3 (m : matrix) : fval :=
  match m with
  | [[a; b; c]; [d; e; f]; [g; h; i]] =>
      fadd (fsub (fmul a (fsub (fmul e i) (fmul f h)))
                 (fmul b (fsub (fmul d i) (fmul f g))))
           (fmul c (fsub (fmul d h) (fmul e g)))
  | _ => NaN
  end.

(** The columns of a 3x3 block have unit norm and are pairwise
    perpendicular. *)
Definition orthonormal (b : matrix) : Prop :=
  norm (column 0 b) = Fin 1 /\ norm (column 1 b) = Fin 1 /\ norm (column 2 b) = Fin 1
  /\ dot (column 0 b) (column 1 b) = Fin 0
  /\ dot (column 0 b) (column 2 b) = Fin 0
  /\ dot (column 1 b) (column 2 b) = Fin 0.

(** ** Real vectors *)

Definition vec3 : Type := (R * R * R)%type.

Definition fin3 (a : vec3) : list fval :=
  let '(x, y, z) := a in [Fin x; Fin y; Fin z].

Definition rcross (a b : vec3) : vec3 :=
  let '(a1, a2, a3) := a in
  let '(b1, b2, b3) := b in
  (a2 * b3 - a3 * b2, a3 * b1 - a1 * b3, a1 * b2 - a2 * b1).

Definition rdot (a b : vec3) : R :=
  let '(a1, a2, a3) := a in
  let '(b1, b2, b3) := b in
  a1 * b1 + a2 * b2 + a3 * b3.

Definition zero3 : vec3 := (0, 0, 0).

(** Two vectors are parallel when their cross product vanishes (a zero
    vector is parallel to every vector). *)
Definition parallel (a b : vec3) : Prop := rcross a b = zero3.

Definition rneg (a : vec3) : vec3 :=
  let '(x, y, z) := a in (- x, - y, - z).

Definition rnorm (a : vec3) : R := sqrt (rdot a a).

Definition rnormalize (a : vec3) : vec3 :=
  let '(x, y, z) := a in (x / rnorm a, y / rnorm a, z / rnorm a).

(** The basis of the specification on real vectors. *)
Definition rright (forward up_hint : vec3) : vec3 :=
  rneg (rnormalize (rcross up_hint (rnormalize forward))).

Definition rup (forward up_hint : vec3) : vec3 :=
  rnormalize (rcross (rnormalize forward) (rright forward up_hint)).

(** Determinant of the matrix with columns [a], [b], [c]. *)
Definition rdet (a b c : vec3) : R := rdot a (rcross b c).

(** The homogeneous matrix with rotation columns [a], [b], [c] and
    translation [o]. *)
Definition homogeneous (a b c o : vec3) : matrix :=
  let '(a1, a2, a3) := a in
  let '(b1, b2, b3) := b in
  let '(c1, c2, c3) := c in
  let '(o1, o2, o3) := o in
  [ [Fin a1; Fin b1; Fin c1; Fin o1];
    [Fin a2; Fin b2; Fin c2; Fin o2];
    [Fin a3; Fin b3; Fin c3; Fin o3];
    [Fin 0; Fin 0; Fin 0; Fin 1] ].

(** ** Shapes *)

Definition is_4x4 (m : matrix) : Prop :=
  length m = 4%nat /\ Forall (fun r => length r = 4%nat) m.

(** A computation whose only exception is the one of a rejected tensor
    operation. *)
Definition runtime_only {A : Type} (c : result A) : Prop :=
  forall e, c = Raise e -> e = RuntimeError.

(** ** Real counterparts used to state further properties *)

(** Sum of the squares of a list of reals. *)
Definition rsumsq (l : list R) : R := fold_right (fun x acc => x * x + acc) 0 l.

Definition rscale (k : R) (a : vec3) : vec3 :=
  let '(x, y, z) := a in (k * x, k * y, k * z).

Definition rsub (a b : vec3) : vec3 :=
  let '(a1, a2, a3) := a in
  let '(b1, b2, b3) := b in
  (a1 - b1, a2 - b2, a3 - b3).

Definition radd (a b : vec3) : vec3 :=
  let '(a1, a2, a3) := a in
  let '(b1, b2, b3) := b in
  (a1 + b1, a2 + b2, a3 + b3).

(** The vertical angle after [torch.clamp]. *)
Definition rclamp (v : R) : R := Rmin (Rmax v eps) (PI - eps).

(** The polar angle [phi] of [get_origin]. *)
Definition rphi (v : R) : R := acos (1 - 2 * (rclamp v / PI)).

(** The point [get_origin] computes from finite arguments. *)
Definition rorigin (theta v r : R) : vec3 :=
  (r * sin (rphi v) * cos (PI - theta),
   r * cos (rphi v),
   r * sin (rphi v) * sin (PI - theta)).

(** A rank 0 or 1 quantity that holds exactly one element. *)
Definition single (s : scalars) : Prop :=
  match s with
  | S0 _ => True
  | S1 l => length l = 1%nat
  end.

(** The element of a quantity that holds one. *)
Definition the_element (s : scalars) : fval :=
  match s with
  | S0 x => x
  | S1 l => hd NaN l
  end.

(** * Properties *)

(** ** Arithmetic on finite values *)

Lemma fdiv_Fin (x y : R) : y <> 0 -> fdiv (Fin x) (Fin y) = Fin (x / y).
Proof.
  intros Hy. unfold fdiv. destruct (Req_dec_T y 0) as [E | _]; [contradiction | reflexivity].
Qed.

Lemma fsqrt_Fin (x : R) : 0 <= x -> fsqrt (Fin x) = Fin (sqrt x).
Proof.
  intros Hx. unfold fsqrt. destruct (Rlt_dec x 0) as [L | _]; [lra | reflexivity].
Qed.

Lemma facos_Fin (x : R) : -1 <= x <= 1 -> facos (Fin x) = Fin (acos x).
Proof.
  intros [H1 H2]. unfold facos.
  destruct (Rle_dec (-1) x) as [_ | N]; [| contradiction].
  destruct (Rle_dec x 1) as [_ | N]; [reflexivity | contradiction].
Qed.

Lemma eps_pos : 0 < eps.
Proof. unfold eps. lra. Qed.

Lemma eps_lt_PI_minus_eps : eps < PI - eps.
Proof. pose proof PI2_1. unfold eps. lra. Qed.

Lemma Rclamp_inside (lo hi x : R) : lo <= x <= hi -> Rmin (Rmax x lo) hi = x.
Proof.
  intros [H1 H2]. rewrite Rmax_left by exact H1. apply Rmin_left. exact H2.
Qed.

Lemma Rclamp_below (lo hi x : R) : x <= lo -> lo <= hi -> Rmin (Rmax x lo) hi = lo.
Proof.
  intros H1 H2. rewrite Rmax_right by exact H1. apply Rmin_left. exact H2.
Qed.

Lemma Rclamp_above (lo hi x : R) : hi <= x -> lo <= hi -> Rmin (Rmax x lo) hi = hi.
Proof.
  intros H1 H2. rewrite Rmax_left by lra. apply Rmin_right. exact H1.
Qed.

(** On unbatched arguments [get_origin] is the Cartesian mapping. *)
Lemma get_origin_scalar (theta v r : fval) :
  get_origin (S0 theta) (S0 v) (S0 r) = Ok (spherical_point theta v r).
Proof. reflexivity. Qed.

(** The polar angle of a clamped vertical angle is a real number. *)
Lemma phi_finite (v : R) :
  eps <= v <= PI - eps ->
  facos (fsub (Fin 1) (fmul (Fin 2) (fdiv (Fin v) (Fin PI))))
  = Fin (acos (1 - 2 * (v / PI))).
Proof.
  intros [H1 H2]. pose proof PI_RGT_0 as HPI. pose proof eps_pos as He.
  rewrite fdiv_Fin by lra. cbn [fmul fsub fneg fadd].
  replace (1 + - (2 * (v / PI))) with (1 - 2 * (v / PI)) by ring.
  apply facos_Fin.
  assert (0 <= v / PI <= 1).
  { split.
    - apply Rmult_le_pos; [lra | left; apply Rinv_0_lt_compat; lra].
    - apply (Rmult_le_reg_r PI); [lra |]. unfold Rdiv.
      rewrite Rmult_assoc, Rinv_l by lra. lra. }
  lra.
Qed.

Lemma sphere_identity (r s c ct st : R) :
  s * s + c * c = 1 -> st * st + ct * ct = 1 ->
  r * s * ct * (r * s * ct) + (r * c * (r * c) + (r * s * st * (r * s * st) + 0))
  = r * r.
Proof.
  intros Hphi Hth.
  replace (r * s * ct * (r * s * ct) + (r * c * (r * c) + (r * s * st * (r * s * st) + 0)))
    with (r * r * (s * s * (st * st + ct * ct) + c * c)) by ring.
  rewrite Hth. replace (s * s * 1 + c * c) with (s * s + c * c) by ring.
  rewrite Hphi. ring.
Qed.

Lemma sin_cos_square (x : R) : sin x * sin x + cos x * cos x = 1.
Proof. pose proof (sin2_cos2 x) as H. unfold Rsqr in H. exact H. Qed.

(** C1: for a vertical angle strictly between [eps] and [PI - eps] and a
    positive radius, [get_origin] returns a point whose Euclidean norm
    ([torch.norm]) is the radius, whatever the horizontal angle. *)
Theorem get_origin_on_sphere (theta v r : R) :
  eps < v < PI - eps -> 0 < r ->
  exists o, get_origin (S0 (Fin theta)) (S0 (Fin v)) (S0 (Fin r)) = Ok o
            /\ length o = 3%nat /\ norm o = Fin r.
Proof.
  intros Hv Hr. rewrite get_origin_scalar. eexists. split; [reflexivity |].
  split; [reflexivity |].
  unfold spherical_point. cbn [fclamp].
  rewrite Rclamp_inside by lra. rewrite phi_finite by lra.
  cbn [fsin fcos fsub fneg fadd fmul]. unfold norm, fsum.
  cbn [map fold_right fmul fadd].
  rewrite sphere_identity by apply sin_cos_square.
  rewrite fsqrt_Fin by nra. f_equal. apply sqrt_square. lra.
Qed.

Lemma get_origin_on_sphere_witness :
  exists o, get_origin (S0 (Fin 0)) (S0 (Fin 1)) (S0 (Fin 2)) = Ok o
            /\ length o = 3%nat /\ norm o = Fin 2.
Proof.
  apply (get_origin_on_sphere 0 1 2).
  - pose proof PI2_1. unfold eps. lra.
  - lra.
Defined.

(** C2: on unbatched arguments [get_origin] clamps the vertical angle to
    [[eps, PI - eps]], takes [phi = arccos(1 - 2 (v / PI))] and returns
    [(r sin(phi) cos(PI - theta), r cos(phi), r sin(phi) sin(PI - theta))];
    the vertical angles [0] and [PI] give the outputs of [eps] and
    [PI - eps]. *)
Theorem get_origin_clamped_mapping (theta v r : fval) :
  get_origin (S0 theta) (S0 v) (S0 r) = Ok (spherical_point theta v r)
  /\ spherical_point theta v r
     = (let phi := facos (fsub (Fin 1) (fmul (Fin 2)
                      (fdiv (fclamp eps (PI - eps) v) (Fin PI)))) in
        [ fmul (fmul r (fsin phi)) (fcos (fsub (Fin PI) theta));
          fmul r (fcos phi);
          fmul (fmul r (fsin phi)) (fsin (fsub (Fin PI) theta)) ])
  /\ get_origin (S0 theta) (S0 (Fin 0)) (S0 r)
     = get_origin (S0 theta) (S0 (Fin eps)) (S0 r)
  /\ get_origin (S0 theta) (S0 (Fin PI)) (S0 r)
     = get_origin (S0 theta) (S0 (Fin (PI - eps))) (S0 r).
Proof.
  pose proof eps_pos as He. pose proof eps_lt_PI_minus_eps as Hlt.
  split; [reflexivity |]. split; [reflexivity |].
  rewrite !get_origin_scalar. unfold spherical_point. cbn [fclamp].
  rewrite (Rclamp_below eps (PI - eps) 0) by lra.
  rewrite (Rclamp_inside eps (PI - eps) eps) by lra.
  rewrite (Rclamp_above eps (PI - eps) PI) by lra.
  rewrite (Rclamp_inside eps (PI - eps) (PI - eps)) by lra.
  split; reflexivity.
Qed.

(** ** Lists, [mapM] and broadcasting *)

Section ListFacts.
Context {A B C : Type}.

Lemma mapM_map_Ok (f : A -> result B) (g : A -> B) (l : list A) :
  (forall x, In x l -> f x = Ok (g x)) -> mapM f l = Ok (map g l).
Proof.
  induction l as [| a l IH]; intros H; cbn.
  - reflexivity.
  - rewrite (H a) by (left; reflexivity). cbn.
    rewrite IH by (intros x Hx; apply H; right; exact Hx). reflexivity.
Qed.

Lemma mapM_inv (f : A -> result B) (l : list A) (l' : list B) :
  mapM f l = Ok l' -> Forall2 (fun x y => f x = Ok y) l l'.
Proof.
  revert l'. induction l as [| a l IH]; intros l' H; cbn in H.
  - injection H as <-. constructor.
  - destruct (f a) as [b |] eqn:Ea; cbn in H; [| discriminate].
    destruct (mapM f l) as [bs |] eqn:El; cbn in H; [| discriminate].
    injection H as <-. constructor; [exact Ea | apply IH; reflexivity].
Qed.

Lemma mapM_length (f : A -> result B) (l : list A) (l' : list B) :
  mapM f l = Ok l' -> length l' = length l.
Proof.
  intros H. apply mapM_inv in H. symmetry. eapply Forall2_length; exact H.
Qed.

Lemma mapM_Forall (f : A -> result B) (P : B -> Prop) (l : list A) (l' : list B) :
  (forall x y, f x = Ok y -> P y) -> mapM f l = Ok l' -> Forall P l'.
Proof.
  intros HP H. apply mapM_inv in H.
  induction H as [| x y l l' Hxy _ IH]; constructor; eauto.
Qed.

Lemma broadcast2_same_length (f : A -> B -> result C) (xs : list A) (ys : list B) :
  length xs = length ys ->
  broadcast2 f xs ys = mapM (fun p => f (fst p) (snd p)) (combine xs ys).
Proof.
  intros H. unfold broadcast2.
  destruct xs as [| x [| x' xs]]; destruct ys as [| y [| y' ys]];
    try discriminate H; try reflexivity.
  rewrite H, Nat.eqb_refl. reflexivity.
Qed.

Lemma expand_list_same (l : list A) (n : nat) :
  length l = n -> expand_list l n = Ok l.
Proof. intros <-. unfold expand_list. rewrite Nat.eqb_refl. reflexivity. Qed.

Lemma expand_list_length (l l' : list A) (n : nat) :
  expand_list l n = Ok l' -> length l' = n.
Proof.
  unfold expand_list. destruct (Nat.eqb (length l) n) eqn:E.
  - intros H. injection H as <-. apply Nat.eqb_eq. exact E.
  - destruct l as [| x [| y l]]; try discriminate.
    intros H. injection H as <-. apply repeat_length.
Qed.

Lemma repeat_map_const (x : B) (l : list A) :
  repeat x (length l) = map (fun _ => x) l.
Proof. induction l as [| a l IH]; cbn; [reflexivity | rewrite IH; reflexivity]. Qed.

Lemma combine_map_same (f : A -> B) (g : A -> C) (l : list A) :
  combine (map f l) (map g l) = map (fun x => (f x, g x)) l.
Proof. induction l as [| a l IH]; cbn; [reflexivity | rewrite IH; reflexivity]. Qed.

Lemma Forall_map_combine (P : A -> Prop) (Q : B -> Prop) (R : C -> Prop)
    (f : A * B -> C) (xs : list A) (ys : list B) :
  (forall x y, P x -> Q y -> R (f (x, y))) ->
  Forall P xs -> Forall Q ys -> Forall R (map f (combine xs ys)).
Proof.
  intros H HP. revert ys. induction HP as [| x xs Hx _ IH]; intros ys HQ; cbn.
  - constructor.
  - destruct HQ as [| y ys Hy HQ]; cbn; constructor; auto.
Qed.

Lemma length_list_set (i : nat) (x : A) (l : list A) :
  length (list_set i x l) = length l.
Proof.
  revert i. induction l as [| a l IH]; intros [| i]; cbn; try reflexivity.
  rewrite IH. reflexivity.
Qed.
End ListFacts.

(** ** Every matrix the builder handles is 4x4 *)

Lemma is_4x4_eye : is_4x4 (eye 4).
Proof. split; [reflexivity | repeat constructor]. Qed.

Lemma length_set_col (j : nat) (o : list fval) (m : matrix) :
  length (set_col j o m) = length m.
Proof.
  revert m. induction o as [| x o IH]; intros [| r m]; cbn; auto.
Qed.

Lemma length_set_block (blk m : matrix) :
  length (set_block blk m) = length m.
Proof.
  revert m. induction blk as [| b blk IH]; intros [| r m]; cbn; auto.
Qed.

Lemma set_col_4x4 (j : nat) (o : list fval) (m : matrix) :
  is_4x4 m -> is_4x4 (set_col j o m).
Proof.
  intros [Hl Hr]. split.
  - rewrite length_set_col. exact Hl.
  - clear Hl. revert o. induction Hr as [| r m Hr Hm IH]; intros [| x o]; cbn.
    + constructor.
    + constructor.
    + constructor; assumption.
    + constructor; [rewrite length_list_set; exact Hr | apply IH].
Qed.

Lemma set_block_4x4 (blk m : matrix) :
  Forall (fun b => length b = 3%nat) blk -> is_4x4 m -> is_4x4 (set_block blk m).
Proof.
  intros Hb [Hl Hr]. split.
  - rewrite length_set_block. exact Hl.
  - clear Hl. revert m Hr. induction Hb as [| b blk Hb _ IH]; intros m Hr; cbn.
    + destruct m; exact Hr.
    + destruct Hr as [| r m Hr Hm]; [constructor |].
      constructor; [| apply IH; exact Hm].
      unfold set_prefix. rewrite length_app, length_skipn, Hb, Hr. reflexivity.
Qed.

Lemma expand_block_rows (blk blk' : matrix) :
  expand_block blk = Ok blk' -> Forall (fun b => length b = 3%nat) blk'.
Proof.
  unfold expand_block. destruct (expand_list blk 3) as [b |]; cbn; [| discriminate].
  apply mapM_Forall. intros x y. apply expand_list_length.
Qed.

Lemma matmul_4x4 (a b : matrix) : is_4x4 a -> is_4x4 b -> is_4x4 (matmul a b).
Proof.
  intros [Ha _] [Hb Hr]. unfold matmul. split.
  - rewrite length_map. exact Ha.
  - apply Forall_map, Forall_forall. intros row _.
    rewrite length_map, length_seq.
    destruct Hr as [| r m Hr _]; [discriminate Hb | exact Hr].
Qed.

Lemma bmm_4x4 (a b : list matrix) :
  Forall is_4x4 a -> Forall is_4x4 b -> Forall is_4x4 (bmm a b).
Proof.
  intros Ha Hb. unfold bmm.
  apply (Forall_map_combine is_4x4 is_4x4); auto.
  intros x y. apply matmul_4x4.
Qed.

Lemma trailing_4x4_spec (t : list matrix) :
  trailing_4x4 t = true <-> Forall is_4x4 t.
Proof.
  unfold trailing_4x4. rewrite forallb_forall, Forall_forall.
  split; intros H m Hm; specialize (H m Hm).
  - apply andb_prop in H as [H1 H2]. split.
    + apply Nat.eqb_eq. exact H1.
    + apply Forall_forall. intros r Hr. apply Nat.eqb_eq.
      rewrite forallb_forall in H2. auto.
  - destruct H as [H1 H2]. apply andb_true_intro. split.
    + apply Nat.eqb_eq. exact H1.
    + apply forallb_forall. intros r Hr. apply Nat.eqb_eq.
      rewrite Forall_forall in H2. auto.
Qed.

Lemma Forall_repeat_eye (n : nat) : Forall is_4x4 (repeat (eye 4) n).
Proof.
  apply Forall_forall. intros m Hm. apply repeat_spec in Hm. subst m.
  apply is_4x4_eye.
Qed.

Lemma setitem_block_4x4 (ms ms' : list matrix) (st : stacked) :
  Forall is_4x4 ms -> setitem_block ms st = Ok ms' -> Forall is_4x4 ms'.
Proof.
  intros Hms. destruct st as [blk | blks]; cbn.
  - destruct (expand_block blk) as [blk' |] eqn:E; cbn; [| discriminate].
    intros H. injection H as <-. apply Forall_map.
    eapply Forall_impl; [| exact Hms]. intros m Hm.
    apply set_block_4x4; [eapply expand_block_rows; exact E | exact Hm].
  - destruct (expand_list blks (length ms)) as [b1 |]; cbn; [| discriminate].
    destruct (mapM expand_block b1) as [b2 |] eqn:E; cbn; [| discriminate].
    intros H. injection H as <-.
    apply (Forall_map_combine (fun b => Forall (fun r => length r = 3%nat) b) is_4x4).
    + intros x y. apply set_block_4x4.
    + eapply mapM_Forall; [| exact E]. intros x y. apply expand_block_rows.
    + exact Hms.
Qed.

Lemma setitem_col3_4x4 (ms ms' : list matrix) (origin : vecs) :
  Forall is_4x4 ms -> setitem_col3 ms origin = Ok ms' -> Forall is_4x4 ms'.
Proof.
  intros Hms. destruct origin as [o | os]; cbn.
  - destruct (expand_list o 3) as [o' |]; cbn; [| discriminate].
    intros H. injection H as <-. apply Forall_map.
    eapply Forall_impl; [| exact Hms]. intros m. apply set_col_4x4.
  - destruct (expand_list os (length ms)) as [o1 |]; cbn; [| discriminate].
    destruct (mapM (fun o => expand_list o 3) o1) as [o2 |] eqn:E; cbn; [| discriminate].
    intros H. injection H as <-.
    apply (Forall_map_combine (fun _ => True) is_4x4).
    + intros x y _. apply set_col_4x4.
    + apply Forall_forall. trivial.
    + exact Hms.
Qed.

(** ** The tensor operations raise [RuntimeError] only *)

Lemma runtime_Ok {A : Type} (a : A) : runtime_only (Ok a).
Proof. intros e H. discriminate H. Qed.

Lemma runtime_Raise {A : Type} : runtime_only (@Raise A RuntimeError).
Proof. intros e H. injection H as <-. reflexivity. Qed.

Lemma runtime_bind {A B : Type} (c : result A) (k : A -> result B) :
  runtime_only c -> (forall a, runtime_only (k a)) -> runtime_only (bind c k).
Proof.
  intros Hc Hk e. destruct c as [a | e']; cbn.
  - apply Hk.
  - intros H. injection H as <-. apply Hc. reflexivity.
Qed.

Lemma runtime_mapM {A B : Type} (f : A -> result B) (l : list A) :
  (forall x, runtime_only (f x)) -> runtime_only (mapM f l).
Proof.
  intros Hf. induction l as [| a l IH]; cbn.
  - apply runtime_Ok.
  - apply runtime_bind; [apply Hf |]. intros b.
    apply runtime_bind; [exact IH |]. intros bs. apply runtime_Ok.
Qed.

Lemma runtime_broadcast2 {A B C : Type} (f : A -> B -> result C) xs ys :
  (forall x y, runtime_only (f x y)) -> runtime_only (broadcast2 f xs ys).
Proof.
  intros Hf. unfold broadcast2.
  destruct xs as [| x [| x' xs]]; destruct ys as [| y [| y' ys]];
    try (apply runtime_mapM; intros; apply Hf);
    destruct (Nat.eqb _ _);
    try apply runtime_Raise; apply runtime_mapM; intros; apply Hf.
Qed.

Lemma runtime_expand_list {A : Type} (l : list A) (n : nat) :
  runtime_only (expand_list l n).
Proof.
  unfold expand_list. destruct (Nat.eqb _ _); [apply runtime_Ok |].
  destruct l as [| x [| y l]];
    first [apply runtime_Ok | apply runtime_Raise].
Qed.

Lemma runtime_vbin rowop (a b : vecs) :
  (forall x y, runtime_only (rowop x y)) -> runtime_only (vbin rowop a b).
Proof.
  intros H. destruct a, b; cbn; apply runtime_bind;
    try (intros; apply runtime_Ok).
  - apply H.
  - apply runtime_mapM. intros; apply H.
  - apply runtime_mapM. intros; apply H.
  - apply runtime_broadcast2. exact H.
Qed.

Lemma runtime_cross_row (a b : list fval) : runtime_only (cross_row a b).
Proof.
  unfold cross_row.
  destruct a as [| a1 [| a2 [| a3 [| a4 a]]]]; try apply runtime_Raise;
    destruct b as [| b1 [| b2 [| b3 [| b4 b]]]];
    first [apply runtime_Raise | apply runtime_Ok].
Qed.

Lemma runtime_expand_as (a b : vecs) : runtime_only (expand_as a b).
Proof.
  destruct a, b; cbn; try apply runtime_Raise; apply runtime_bind;
    try (intros; apply runtime_Ok).
  - apply runtime_expand_list.
  - apply runtime_mapM. intros; apply runtime_expand_list.
  - apply runtime_expand_list.
  - intros us. apply runtime_bind; [| intros; apply runtime_Ok].
    apply runtime_mapM. intros; apply runtime_expand_list.
Qed.

Lemma runtime_stack_row (a b c : list fval) : runtime_only (stack_row a b c).
Proof.
  unfold stack_row. destruct (_ && _); [apply runtime_Ok | apply runtime_Raise].
Qed.

Lemma runtime_stack_rows (a b c : list (list fval)) : runtime_only (stack_rows a b c).
Proof.
  revert b c. induction a as [| x a IH]; intros [| y b] [| z c]; cbn;
    try apply runtime_Raise; try apply runtime_Ok.
  apply runtime_bind; [apply runtime_stack_row |]. intros m.
  apply runtime_bind; [apply IH |]. intros; apply runtime_Ok.
Qed.

Lemma runtime_stack (a b c : vecs) : runtime_only (stack a b c).
Proof.
  destruct a, b, c; cbn; try apply runtime_Raise; apply runtime_bind;
    try (intros; apply runtime_Ok).
  - apply runtime_stack_row.
  - apply runtime_stack_rows.
Qed.

Lemma runtime_expand_block (blk : matrix) : runtime_only (expand_block blk).
Proof.
  unfold expand_block. apply runtime_bind; [apply runtime_expand_list |].
  intros b. apply runtime_mapM. intros; apply runtime_expand_list.
Qed.

Lemma runtime_setitem_block (ms : list matrix) (st : stacked) :
  runtime_only (setitem_block ms st).
Proof.
  destruct st; cbn; apply runtime_bind.
  - apply runtime_expand_block.
  - intros; apply runtime_Ok.
  - apply runtime_expand_list.
  - intros b. apply runtime_bind; [| intros; apply runtime_Ok].
    apply runtime_mapM. apply runtime_expand_block.
Qed.

Lemma runtime_setitem_col3 (ms : list matrix) (origin : vecs) :
  runtime_only (setitem_col3 ms origin).
Proof.
  destruct origin; cbn; apply runtime_bind;
    try apply runtime_expand_list; try (intros; apply runtime_Ok).
  intros b. apply runtime_bind; [| intros; apply runtime_Ok].
  apply runtime_mapM. intros; apply runtime_expand_list.
Qed.

(** C7: whatever the arguments, [create_cam2world_matrix] returns a batch
    of 4x4 matrices or raises; the assertion on the trailing shape is the
    only check of its own and it never fails, so every exception comes
    from a tensor operation that rejects the shapes of the arguments. *)
Theorem create_cam2world_matrix_shape (forward_vector origin up_vector : vecs) :
  match create_cam2world_matrix forward_vector origin up_vector with
  | Ok cam2world => trailing_4x4 cam2world = true /\ Forall is_4x4 cam2world
  | Raise e => e = RuntimeError
  end.
Proof.
  unfold create_cam2world_matrix.
  destruct (expand_as up_vector (normalize_vecs forward_vector)) as [up |] eqn:E1;
    cbn [bind]; [| exact (runtime_expand_as _ _ _ E1)].
  destruct (cross up (normalize_vecs forward_vector)) as [c |] eqn:E2;
    cbn [bind]; [| exact (runtime_vbin _ _ _ runtime_cross_row _ E2)].
  destruct (cross (normalize_vecs forward_vector) (vneg (normalize_vecs c)))
    as [c' |] eqn:E3;
    cbn [bind]; [| exact (runtime_vbin _ _ _ runtime_cross_row _ E3)].
  destruct (stack _ _ _) as [st |] eqn:E4;
    cbn [bind]; [| exact (runtime_stack _ _ _ _ E4)].
  destruct (setitem_block _ st) as [rot |] eqn:Erot;
    cbn [bind]; [| exact (runtime_setitem_block _ _ _ Erot)].
  destruct (setitem_col3 _ origin) as [tr |] eqn:Etr;
    cbn [bind]; [| exact (runtime_setitem_col3 _ _ _ Etr)].
  assert (H : Forall is_4x4 (bmm tr rot)).
  { apply bmm_4x4.
    - eapply setitem_col3_4x4; [apply Forall_repeat_eye | exact Etr].
    - eapply setitem_block_4x4; [apply Forall_repeat_eye | exact Erot]. }
  pose proof H as Hb. apply trailing_4x4_spec in Hb. rewrite Hb. split; assumption.
Qed.

(** ** The forward vector *)

(** C9: without a precomputed origin [get_forward_vector] computes the
    origin with [get_origin] and then does what it does when that origin is
    supplied; with an origin supplied the result is
    [normalize_vecs (lookat_position - camera_origins)] and the angles and
    the radius are not used. *)
Theorem get_forward_vector_origin_reuse (lookat_position : vecs)
    (horizontal_mean vertical_mean radius : scalars) :
  get_forward_vector lookat_position horizontal_mean vertical_mean radius None
  = (o <- get_origin horizontal_mean vertical_mean radius ;;
     get_forward_vector lookat_position horizontal_mean vertical_mean radius
       (Some (V1 o)))
  /\ (forall camera_origins : vecs,
        get_forward_vector lookat_position horizontal_mean vertical_mean radius
          (Some camera_origins)
        = (d <- vsub lookat_position camera_origins ;; Ok (normalize_vecs d)))
  /\ (forall (camera_origins : vecs) (h' v' r' : scalars),
        get_forward_vector lookat_position h' v' r' (Some camera_origins)
        = get_forward_vector lookat_position horizontal_mean vertical_mean radius
            (Some camera_origins)).
Proof.
  split; [| split].
  - unfold get_forward_vector.
    destruct (get_origin horizontal_mean vertical_mean radius) as [o | e];
      reflexivity.
  - intros camera_origins. reflexivity.
  - intros camera_origins h' v' r'. reflexivity.
Qed.

(** ** The builder, one pose at a time *)

Lemma length_normalize_row (v : list fval) : length (normalize_row v) = length v.
Proof. unfold normalize_row. apply length_map. Qed.

Lemma cross_row_3 (a b : list fval) :
  length a = 3%nat -> length b = 3%nat -> cross_row a b = Ok (cross3 a b).
Proof.
  intros Ha Hb.
  destruct a as [| a1 [| a2 [| a3 [| a4 a]]]]; try discriminate Ha.
  destruct b as [| b1 [| b2 [| b3 [| b4 b]]]]; try discriminate Hb.
  reflexivity.
Qed.

Lemma length_cross3 (a b : list fval) :
  length a = 3%nat -> length b = 3%nat -> length (cross3 a b) = 3%nat.
Proof.
  intros Ha Hb.
  destruct a as [| a1 [| a2 [| a3 [| a4 a]]]]; try discriminate Ha.
  destruct b as [| b1 [| b2 [| b3 [| b4 b]]]]; try discriminate Hb.
  reflexivity.
Qed.

Lemma length_right_of (f u : list fval) :
  length f = 3%nat -> length u = 3%nat -> length (right_of f u) = 3%nat.
Proof.
  intros Hf Hu. unfold right_of.
  rewrite length_map, length_normalize_row.
  apply length_cross3; [exact Hu | rewrite length_normalize_row; exact Hf].
Qed.

Lemma length_up_of (f u : list fval) :
  length f = 3%nat -> length u = 3%nat -> length (up_of f u) = 3%nat.
Proof.
  intros Hf Hu. unfold up_of. rewrite length_normalize_row.
  apply length_cross3;
    [rewrite length_normalize_row; exact Hf | apply length_right_of; assumption].
Qed.

Lemma zip3_rows (a b c : list fval) :
  Forall (fun r => length r = 3%nat) (zip3 a b c).
Proof.
  revert b c. induction a as [| x a IH]; intros [| y b] [| z c]; cbn;
    constructor; [reflexivity | apply IH].
Qed.

Lemma length_zip3 (a b c : list fval) :
  length b = length a -> length c = length a -> length (zip3 a b c) = length a.
Proof.
  revert b c. induction a as [| x a IH]; intros [| y b] [| z c] Hb Hc; cbn;
    try discriminate; [reflexivity |].
  f_equal. apply IH; [injection Hb | injection Hc]; auto.
Qed.

Lemma stack_row_3 (a b c : list fval) :
  length a = 3%nat -> length b = 3%nat -> length c = 3%nat ->
  stack_row a b c = Ok (zip3 a b c).
Proof.
  intros Ha Hb Hc. unfold stack_row. rewrite Ha, Hb, Hc. reflexivity.
Qed.

Lemma expand_block_3x3 (blk : matrix) :
  length blk = 3%nat -> Forall (fun r => length r = 3%nat) blk ->
  expand_block blk = Ok blk.
Proof.
  intros Hl Hr. unfold expand_block. rewrite expand_list_same by exact Hl. cbn.
  rewrite (mapM_map_Ok _ (fun r => r)).
  - rewrite map_id. reflexivity.
  - intros r Hin. apply expand_list_same. rewrite Forall_forall in Hr. auto.
Qed.

Lemma expand_block_zip3 (a b c : list fval) :
  length a = 3%nat -> length b = 3%nat -> length c = 3%nat ->
  expand_block (zip3 a b c) = Ok (zip3 a b c).
Proof.
  intros Ha Hb Hc. apply expand_block_3x3; [| apply zip3_rows].
  rewrite length_zip3; congruence.
Qed.

Lemma is_4x4_rotation_of (f u : list fval) : is_4x4 (rotation_of f u).
Proof. apply set_block_4x4; [apply zip3_rows | apply is_4x4_eye]. Qed.

Lemma is_4x4_pose_matrix (f o u : list fval) : is_4x4 (pose_matrix f o u).
Proof.
  apply matmul_4x4; [apply set_col_4x4, is_4x4_eye | apply is_4x4_rotation_of].
Qed.

(** The stages of [create_cam2world_matrix] on batches given as images of
    one list. *)
Section Stages.
Context {X : Type}.
Variable l : list X.

Lemma expand_as_rows (u : list fval) (f : X -> list fval) :
  (forall x, In x l -> length (f x) = length u) ->
  expand_as (V1 u) (V2 (map f l)) = Ok (V2 (map (fun _ => u) l)).
Proof.
  intros H. cbn. rewrite (mapM_map_Ok _ (fun _ => u)).
  - cbn. rewrite map_map. reflexivity.
  - intros r Hr. apply in_map_iff in Hr as [x [<- Hx]].
    apply expand_list_same. symmetry. apply H. exact Hx.
Qed.

Lemma cross_rows (a b : X -> list fval) :
  (forall x, In x l -> length (a x) = 3%nat /\ length (b x) = 3%nat) ->
  cross (V2 (map a l)) (V2 (map b l))
  = Ok (V2 (map (fun x => cross3 (a x) (b x)) l)).
Proof.
  intros H. unfold cross. cbn.
  rewrite broadcast2_same_length by (rewrite !length_map; reflexivity).
  rewrite combine_map_same.
  rewrite (mapM_map_Ok _ (fun p => cross3 (fst p) (snd p))).
  - cbn. rewrite map_map. reflexivity.
  - intros p Hp. apply in_map_iff in Hp as [x [<- Hx]]. cbn.
    destruct (H x Hx). apply cross_row_3; assumption.
Qed.

Lemma stack_rows_map (a b c : X -> list fval) :
  (forall x, In x l ->
     length (a x) = 3%nat /\ length (b x) = 3%nat /\ length (c x) = 3%nat) ->
  stack_rows (map a l) (map b l) (map c l)
  = Ok (map (fun x => zip3 (a x) (b x) (c x)) l).
Proof.
  induction l as [| x l' IH]; intros H; cbn; [reflexivity |].
  destruct (H x (or_introl eq_refl)) as [Ha [Hb Hc]].
  rewrite stack_row_3 by assumption. cbn.
  rewrite IH by (intros y Hy; apply H; right; exact Hy). reflexivity.
Qed.

Lemma setitem_block_map (ms : X -> matrix) (a b c : X -> list fval) :
  (forall x, In x l ->
     length (a x) = 3%nat /\ length (b x) = 3%nat /\ length (c x) = 3%nat) ->
  setitem_block (map ms l) (M3 (map (fun x => zip3 (a x) (b x) (c x)) l))
  = Ok (map (fun x => set_block (zip3 (a x) (b x) (c x)) (ms x)) l).
Proof.
  intros H. cbn.
  rewrite expand_list_same by (rewrite !length_map; reflexivity). cbn.
  rewrite (mapM_map_Ok _ (fun r => r)).
  - cbn. rewrite map_id, combine_map_same, map_map. reflexivity.
  - intros r Hr. apply in_map_iff in Hr as [x [<- Hx]].
    destruct (H x Hx) as [Ha [Hb Hc]]. apply expand_block_zip3; assumption.
Qed.

Lemma setitem_col3_map (ms : X -> matrix) (o : X -> list fval) :
  (forall x, In x l -> length (o x) = 3%nat) ->
  setitem_col3 (map ms l) (V2 (map o l))
  = Ok (map (fun x => set_col 3 (o x) (ms x)) l).
Proof.
  intros H. cbn.
  rewrite expand_list_same by (rewrite !length_map; reflexivity). cbn.
  rewrite (mapM_map_Ok _ (fun r => r)).
  - cbn. rewrite map_id, combine_map_same, map_map. reflexivity.
  - intros r Hr. apply in_map_iff in Hr as [x [<- Hx]].
    apply expand_list_same. apply H. exact Hx.
Qed.

Lemma setitem_col3_single (ms : X -> matrix) (o : list fval) :
  length o = 3%nat ->
  setitem_col3 (map ms l) (V1 o) = Ok (map (fun x => set_col 3 o (ms x)) l).
Proof.
  intros H. cbn. rewrite expand_list_same by exact H. cbn.
  rewrite map_map. reflexivity.
Qed.

Lemma bmm_map (a b : X -> matrix) :
  bmm (map a l) (map b l) = map (fun x => matmul (a x) (b x)) l.
Proof. unfold bmm. rewrite combine_map_same, map_map. reflexivity. Qed.
End Stages.

Lemma trailing_4x4_poses {X : Type} (l : list X) (g : X -> matrix) :
  (forall x, is_4x4 (g x)) -> trailing_4x4 (map g l) = true.
Proof.
  intros H. apply trailing_4x4_spec, Forall_map, Forall_forall. intros x _. apply H.
Qed.

(** A batch of forward vectors and one up hint: the rotation of matrix [b]
    is built from row [b]; the origins enter through the translation
    only. *)
Lemma create_cam2world_matrix_rows {X : Type} (l : list X)
    (f : X -> list fval) (origin : vecs) (u : list fval) :
  length u = 3%nat ->
  (forall x, In x l -> length (f x) = 3%nat) ->
  create_cam2world_matrix (V2 (map f l)) origin (V1 u)
  = (tr <- setitem_col3 (map (fun _ => eye 4) l) origin ;;
     Ok (bmm tr (map (fun x => rotation_of (f x) u) l))).
Proof.
  intros Hu H. unfold create_cam2world_matrix.
  cbn [normalize_vecs vmap vneg]. rewrite !map_map.
  rewrite expand_as_rows
    by (intros x Hx; rewrite length_normalize_row, Hu; apply H; exact Hx).
  cbn [bind].
  rewrite (cross_rows l (fun _ => u) (fun x => normalize_row (f x)))
    by (intros x Hx; split;
        [exact Hu | rewrite length_normalize_row; apply H; exact Hx]).
  cbn [bind vmap vneg normalize_vecs]. rewrite !map_map.
  change (fun x : X => map fneg (normalize_row (cross3 u (normalize_row (f x)))))
    with (fun x : X => right_of (f x) u).
  rewrite (cross_rows l (fun x => normalize_row (f x)) (fun x => right_of (f x) u))
    by (intros x Hx; split;
        [rewrite length_normalize_row | apply length_right_of; [| exact Hu]];
        apply H; exact Hx).
  cbn [bind vmap vneg normalize_vecs stack shape0]. rewrite !map_map, length_map.
  change (fun x : X => normalize_row (cross3 (normalize_row (f x)) (right_of (f x) u)))
    with (fun x : X => up_of (f x) u).
  rewrite (stack_rows_map l (fun x => right_of (f x) u) (fun x => up_of (f x) u)
             (fun x => normalize_row (f x))).
  2:{ intros x Hx. pose proof (H x Hx) as Hf.
      repeat split;
        [apply length_right_of | apply length_up_of | rewrite length_normalize_row];
        assumption. }
  cbn [bind]. rewrite repeat_map_const.
  rewrite (setitem_block_map l (fun _ => eye 4) (fun x => right_of (f x) u)
             (fun x => up_of (f x) u) (fun x => normalize_row (f x))).
  2:{ intros x Hx. pose proof (H x Hx) as Hf.
      repeat split;
        [apply length_right_of | apply length_up_of | rewrite length_normalize_row];
        assumption. }
  cbn [bind].
  change (fun x : X =>
            set_block (zip3 (right_of (f x) u) (up_of (f x) u) (normalize_row (f x)))
              (eye 4))
    with (fun x : X => rotation_of (f x) u).
  destruct (setitem_col3 (map (fun _ => eye 4) l) origin) as [tr |] eqn:Etr;
    cbn [bind]; [| reflexivity].
  assert (Hb : trailing_4x4 (bmm tr (map (fun x => rotation_of (f x) u) l)) = true).
  { apply trailing_4x4_spec, bmm_4x4.
    - eapply setitem_col3_4x4; [| exact Etr].
      apply Forall_map, Forall_forall. intros x _. apply is_4x4_eye.
    - apply Forall_map, Forall_forall. intros x _. apply is_4x4_rotation_of. }
  rewrite Hb. reflexivity.
Qed.

(** [N] forward vectors against [N] origins: matrix [b] of the result is
    the pose of row [b]. *)
Lemma create_cam2world_matrix_batch {X : Type} (l : list X)
    (f o : X -> list fval) (u : list fval) :
  length u = 3%nat ->
  (forall x, In x l -> length (f x) = 3%nat /\ length (o x) = 3%nat) ->
  create_cam2world_matrix (V2 (map f l)) (V2 (map o l)) (V1 u)
  = Ok (map (fun x => pose_matrix (f x) (o x) u) l).
Proof.
  intros Hu H.
  rewrite create_cam2world_matrix_rows
    by (try exact Hu; intros x Hx; apply H; exact Hx).
  rewrite setitem_col3_map by (intros x Hx; apply H; exact Hx).
  cbn [bind]. rewrite bmm_map. reflexivity.
Qed.

(** [N] forward vectors against one origin: the origin is broadcast. *)
Lemma create_cam2world_matrix_one_origin {X : Type} (l : list X)
    (f : X -> list fval) (o u : list fval) :
  length u = 3%nat -> length o = 3%nat ->
  (forall x, In x l -> length (f x) = 3%nat) ->
  create_cam2world_matrix (V2 (map f l)) (V1 o) (V1 u)
  = Ok (map (fun x => pose_matrix (f x) o u) l).
Proof.
  intros Hu Ho H.
  rewrite create_cam2world_matrix_rows by assumption.
  rewrite setitem_col3_single by exact Ho.
  cbn [bind]. rewrite bmm_map. reflexivity.
Qed.

(** One forward vector of shape (3,): [shape[0]] is the number of
    components, so the pose comes out three times. *)
Lemma create_cam2world_matrix_unbatched (f o u : list fval) :
  length f = 3%nat -> length o = 3%nat -> length u = 3%nat ->
  create_cam2world_matrix (V1 f) (V1 o) (V1 u)
  = Ok [pose_matrix f o u; pose_matrix f o u; pose_matrix f o u].
Proof.
  intros Hf Ho Hu. unfold create_cam2world_matrix.
  cbn [normalize_vecs vmap vneg expand_as].
  rewrite expand_list_same by (rewrite length_normalize_row; congruence).
  cbn [bind]. unfold cross. cbn [vbin].
  rewrite cross_row_3 by (rewrite ?length_normalize_row; assumption).
  cbn [bind vmap vneg normalize_vecs].
  change (map fneg (normalize_row (cross3 u (normalize_row f)))) with (right_of f u).
  rewrite cross_row_3
    by (rewrite ?length_normalize_row; try apply length_right_of; assumption).
  cbn [bind vmap vneg normalize_vecs stack shape0].
  change (normalize_row (cross3 (normalize_row f) (right_of f u))) with (up_of f u).
  rewrite stack_row_3
    by (rewrite ?length_normalize_row;
        try apply length_right_of; try apply length_up_of; assumption).
  cbn [bind setitem_block].
  rewrite expand_block_zip3
    by (rewrite ?length_normalize_row;
        try apply length_right_of; try apply length_up_of; assumption).
  rewrite length_normalize_row, Hf.
  cbn [bind repeat map setitem_col3].
  rewrite expand_list_same by exact Ho.
  cbn [bind map bmm combine fst snd].
  change (matmul (set_col 3 o (eye 4))
            (set_block (zip3 (right_of f u) (up_of f u) (normalize_row f)) (eye 4)))
    with (pose_matrix f o u).
  assert (Hb : trailing_4x4 [pose_matrix f o u; pose_matrix f o u; pose_matrix f o u]
               = true).
  { apply trailing_4x4_spec. repeat constructor; apply is_4x4_pose_matrix. }
  rewrite Hb. reflexivity.
Qed.

(** ** The convenience entry point *)

Lemma sub_row_same_length (a b : list fval) :
  length a = length b -> sub_row a b = Ok (row_sub a b).
Proof.
  intros H. unfold sub_row. rewrite broadcast2_same_length by exact H.
  apply mapM_map_Ok. intros; reflexivity.
Qed.

Lemma length_row_sub (a b : list fval) :
  length a = length b -> length (row_sub a b) = length a.
Proof.
  intros H. unfold row_sub. rewrite length_map, length_combine, H.
  apply Nat.min_id.
Qed.

Lemma length_forward_of (t o : list fval) :
  length t = 3%nat -> length o = 3%nat -> length (forward_of t o) = 3%nat.
Proof.
  intros Ht Ho. unfold forward_of.
  rewrite length_normalize_row, length_row_sub; congruence.
Qed.

Lemma get_forward_vector_unbatched (t o : list fval) (h v r : scalars) :
  length t = length o ->
  get_forward_vector (V1 t) h v r (Some (V1 o)) = Ok (V1 (forward_of t o)).
Proof.
  intros H. unfold get_forward_vector, vsub. cbn [bind vbin].
  rewrite sub_row_same_length by exact H. reflexivity.
Qed.

Lemma sample_unbatched (h v r : fval) (t u : list fval) (dev : device) :
  length t = 3%nat -> length u = 3%nat ->
  sample (S0 h) (S0 v) (V1 t) (S0 r) (V1 u) dev
  = (let o := spherical_point h v r in
     let m := pose_matrix (forward_of t o) o u in
     Ok [m; m; m]).
Proof.
  intros Ht Hu. unfold sample. rewrite get_origin_scalar. cbn [bind].
  rewrite get_forward_vector_unbatched by (rewrite Ht; reflexivity).
  cbn [bind].
  rewrite create_cam2world_matrix_unbatched;
    [reflexivity | apply length_forward_of | | ]; auto.
Qed.

(** C10: with unbatched angles and radius and one 3-vector as target (and
    as up hint) [sample] returns a tensor of shape (3, 4, 4) whose three
    matrices are the same. *)
Theorem sample_unbatched_shape (h v r t1 t2 t3 u1 u2 u3 : fval) (dev : device) :
  exists m : matrix,
    sample (S0 h) (S0 v) (V1 [t1; t2; t3]) (S0 r) (V1 [u1; u2; u3]) dev
    = Ok [m; m; m]
    /\ is_4x4 m
    /\ trailing_4x4 [m; m; m] = true
    /\ length [m; m; m] = 3%nat.
Proof.
  rewrite sample_unbatched by reflexivity. cbv zeta.
  eexists. split; [reflexivity |].
  assert (H : is_4x4 (pose_matrix
                 (forward_of [t1; t2; t3] (spherical_point h v r))
                 (spherical_point h v r) [u1; u2; u3]))
    by apply is_4x4_pose_matrix.
  split; [exact H |]. split; [| reflexivity].
  apply trailing_4x4_spec. repeat constructor; exact H.
Qed.

(** ** Batches *)

Lemma get_forward_vector_one_target (t : list fval) (os : list (list fval))
    (h v r : scalars) :
  Forall (fun o => length o = length t) os ->
  get_forward_vector (V1 t) h v r (Some (V2 os))
  = Ok (V2 (map (forward_of t) os)).
Proof.
  intros H. unfold get_forward_vector, vsub. cbn [bind vbin].
  rewrite (mapM_map_Ok _ (row_sub t)).
  - cbn [bind normalize_vecs vmap]. rewrite map_map. reflexivity.
  - intros o Ho. apply sub_row_same_length. rewrite Forall_forall in H.
    symmetry. apply H. exact Ho.
Qed.

Lemma map_fst_combine {A B : Type} (xs : list A) (ys : list B) :
  length xs = length ys -> map fst (combine xs ys) = xs.
Proof.
  revert ys. induction xs as [| x xs IH]; intros [| y ys] H; cbn;
    try discriminate H; [reflexivity |].
  f_equal. apply IH. injection H as H. exact H.
Qed.

Lemma map_snd_combine {A B : Type} (xs : list A) (ys : list B) :
  length xs = length ys -> map snd (combine xs ys) = ys.
Proof.
  revert ys. induction xs as [| x xs IH]; intros [| y ys] H; cbn;
    try discriminate H; [reflexivity |].
  f_equal. apply IH. injection H as H. exact H.
Qed.

Lemma In_combine_Forall {A B : Type} (P : A -> Prop) (Q : B -> Prop)
    (xs : list A) (ys : list B) (p : A * B) :
  Forall P xs -> Forall Q ys -> In p (combine xs ys) -> P (fst p) /\ Q (snd p).
Proof.
  intros HP HQ Hin. destruct p as [x y]. cbn.
  rewrite Forall_forall in HP, HQ. split.
  - apply HP. eapply in_combine_l; exact Hin.
  - apply HQ. eapply in_combine_r; exact Hin.
Qed.

Lemma create_cam2world_matrix_lists (fs os : list (list fval)) (u : list fval) :
  length u = 3%nat -> length fs = length os ->
  Forall (fun f => length f = 3%nat) fs ->
  Forall (fun o => length o = 3%nat) os ->
  create_cam2world_matrix (V2 fs) (V2 os) (V1 u)
  = Ok (map (fun p => pose_matrix (fst p) (snd p) u) (combine fs os)).
Proof.
  intros Hu Hl Hf Ho.
  rewrite <- (map_fst_combine fs os Hl) at 1.
  rewrite <- (map_snd_combine fs os Hl) at 2.
  apply create_cam2world_matrix_batch; [exact Hu |].
  intros p Hp.
  exact (In_combine_Forall (fun f => length f = 3%nat) (fun o => length o = 3%nat)
           fs os p Hf Ho Hp).
Qed.


(** C6, as the code has it: [get_origin] takes one angle pair and gives
    one origin; [get_forward_vector] and [create_cam2world_matrix]
    broadcast.  One target against [N] origins gives [N] forward vectors,
    [N] forward vectors against [N] origins or against one origin give [N]
    matrices, and row [b] of each output is what the unbatched computation
    gives on row [b] of the inputs. *)
Theorem batch_broadcasting (target origin up_hint : list fval)
    (fs os : list (list fval)) (h v r : scalars) (theta phi rho : fval) :
  length target = 3%nat -> length origin = 3%nat -> length up_hint = 3%nat ->
  length fs = length os ->
  Forall (fun f => length f = 3%nat) fs ->
  Forall (fun o => length o = 3%nat) os ->
  (exists p, get_origin (S0 theta) (S0 phi) (S0 rho) = Ok p /\ length p = 3%nat)
  /\ get_forward_vector (V1 target) h v r (Some (V2 os))
     = Ok (V2 (map (forward_of target) os))
  /\ length (map (forward_of target) os) = length os
  /\ (forall o, In o os ->
        get_forward_vector (V1 target) h v r (Some (V1 o))
        = Ok (V1 (forward_of target o)))
  /\ create_cam2world_matrix (V2 fs) (V2 os) (V1 up_hint)
     = Ok (map (fun p => pose_matrix (fst p) (snd p) up_hint) (combine fs os))
  /\ length (map (fun p => pose_matrix (fst p) (snd p) up_hint) (combine fs os))
     = length os
  /\ create_cam2world_matrix (V2 fs) (V1 origin) (V1 up_hint)
     = Ok (map (fun f => pose_matrix f origin up_hint) fs)
  /\ length (map (fun f => pose_matrix f origin up_hint) fs) = length fs
  /\ (forall f o, In (f, o) (combine fs os) ->
        create_cam2world_matrix (V2 [f]) (V2 [o]) (V1 up_hint)
        = Ok [pose_matrix f o up_hint]).
Proof.
  intros Ht Hor Hu Hl Hf Ho.
  assert (Ho' : Forall (fun o => length o = length target) os)
    by (rewrite Ht; exact Ho).
  split.
  { exists (spherical_point theta phi rho).
    split; [apply get_origin_scalar | reflexivity]. }
  repeat split.
  - apply get_forward_vector_one_target. exact Ho'.
  - apply length_map.
  - intros o Hin. apply get_forward_vector_unbatched.
    rewrite Forall_forall in Ho'. symmetry. apply Ho'. exact Hin.
  - apply create_cam2world_matrix_lists; assumption.
  - rewrite length_map, length_combine, Hl. apply Nat.min_id.
  - rewrite <- (map_id fs) at 1.
    apply create_cam2world_matrix_one_origin; try assumption.
    intros f Hin. rewrite Forall_forall in Hf. apply Hf. exact Hin.
  - apply length_map.
  - intros f o Hin.
    destruct (In_combine_Forall (fun f => length f = 3%nat)
                (fun o => length o = 3%nat) fs os (f, o) Hf Ho Hin) as [Hf1 Ho1].
    cbn in Hf1, Ho1.
    apply (create_cam2world_matrix_lists [f] [o] up_hint);
      [exact Hu | reflexivity | | ]; repeat constructor; assumption.
Qed.

Lemma batch_broadcasting_witness :
  create_cam2world_matrix
    (V2 [[Fin 0; Fin 0; Fin 1]; [Fin 1; Fin 0; Fin 0]])
    (V1 [Fin 1; Fin 2; Fin 3]) default_up_vector
  = Ok (map (fun f => pose_matrix f [Fin 1; Fin 2; Fin 3] [Fin 0; Fin (-1); Fin 0])
          [[Fin 0; Fin 0; Fin 1]; [Fin 1; Fin 0; Fin 0]]).
Proof.
  apply (batch_broadcasting [Fin 0; Fin 0; Fin 0] [Fin 1; Fin 2; Fin 3]
           [Fin 0; Fin (-1); Fin 0]
           [[Fin 0; Fin 0; Fin 1]; [Fin 1; Fin 0; Fin 0]]
           [[Fin 1; Fin 0; Fin 0]; [Fin 0; Fin 0; Fin 1]]
           (S0 (Fin 0)) (S0 (Fin 1)) (S0 (Fin 1)) (Fin 0) (Fin 1) (Fin 1));
    try reflexivity; repeat constructor.
Defined.

(** A batch of two angle pairs is rejected by [get_origin], and so by
    [sample]: the assignment to a slice of size 1 does not broadcast.  One
    forward vector in a batch of size 1 against two origins is rejected
    by [create_cam2world_matrix]: the batch size is the one of the forward
    vectors. *)
Lemma batched_angles_rejected :
  get_origin (S1 [Fin 0; Fin 1]) (S1 [Fin 1; Fin 2]) (S0 (Fin 1))
  = Raise RuntimeError
  /\ sample (S1 [Fin 0; Fin 1]) (S1 [Fin 1; Fin 2]) (V1 [Fin 0; Fin 0; Fin 0])
       (S0 (Fin 1)) default_up_vector Cpu
     = Raise RuntimeError
  /\ create_cam2world_matrix (V2 [[Fin 0; Fin 0; Fin 1]])
       (V2 [[Fin 1; Fin 0; Fin 0]; [Fin 0; Fin 1; Fin 0]]) default_up_vector
     = Raise RuntimeError.
Proof. repeat split; reflexivity. Qed.

(** ** Degenerate inputs *)

Lemma fmul_NaN_r (a : fval) : fmul a NaN = NaN.
Proof. destruct a; reflexivity. Qed.

Lemma fadd_NaN_r (a : fval) : fadd a NaN = NaN.
Proof. destruct a; reflexivity. Qed.

Lemma fdiv_zero_zero : fdiv (Fin 0) (Fin 0) = NaN.
Proof.
  unfold fdiv, inf_of_sign.
  destruct (Req_dec_T 0 0) as [_ | N]; [| contradiction N; reflexivity].
  reflexivity.
Qed.

Lemma rdot_self_nonneg (a : vec3) : 0 <= rdot a a.
Proof. destruct a as [[x y] z]. cbn. nra. Qed.

Lemma rnorm_sqr (a : vec3) : rnorm a * rnorm a = rdot a a.
Proof. unfold rnorm. apply sqrt_sqrt, rdot_self_nonneg. Qed.

Lemma rnorm_pos (a : vec3) : rdot a a <> 0 -> 0 < rnorm a.
Proof.
  intros H. unfold rnorm. apply sqrt_lt_R0.
  pose proof (rdot_self_nonneg a). lra.
Qed.

Lemma norm_fin3 (a : vec3) : norm (fin3 a) = Fin (rnorm a).
Proof.
  destruct a as [[x y] z]. unfold norm, fsum. cbn [fin3 map fold_right fmul fadd].
  replace (x * x + (y * y + (z * z + 0))) with (rdot (x, y, z) (x, y, z))
    by (cbn; ring).
  apply fsqrt_Fin, rdot_self_nonneg.
Qed.

Lemma normalize_row_fin3 (a : vec3) :
  rdot a a <> 0 -> normalize_row (fin3 a) = fin3 (rnormalize a).
Proof.
  intros H. unfold normalize_row. rewrite norm_fin3.
  pose proof (rnorm_pos a H) as Hn.
  destruct a as [[x y] z]. cbn [fin3 map rnormalize].
  rewrite !fdiv_Fin by lra. reflexivity.
Qed.


Lemma length_fin3 (a : vec3) : length (fin3 a) = 3%nat.
Proof. destruct a as [[x y] z]. reflexivity. Qed.

Lemma cross3_fin3 (a b : vec3) : cross3 (fin3 a) (fin3 b) = fin3 (rcross a b).
Proof. destruct a as [[a1 a2] a3], b as [[b1 b2] b3]. reflexivity. Qed.

Lemma map_fneg_fin3 (a : vec3) : map fneg (fin3 a) = fin3 (rneg a).
Proof. destruct a as [[x y] z]. reflexivity. Qed.



Lemma cross3_NaN_l (u : list fval) :
  length u = 3%nat -> cross3 [NaN; NaN; NaN] u = [NaN; NaN; NaN].
Proof.
  intros H. destruct u as [| u1 [| u2 [| u3 [| u4 u]]]]; try discriminate H.
  reflexivity.
Qed.








(** ** The camera basis on real vectors *)

Lemma rdot_cross_left (a b : vec3) : rdot a (rcross a b) = 0.
Proof. destruct a as [[a1 a2] a3], b as [[b1 b2] b3]. cbn. ring. Qed.

Lemma rdot_cross_right (a b : vec3) : rdot b (rcross a b) = 0.
Proof. destruct a as [[a1 a2] a3], b as [[b1 b2] b3]. cbn. ring. Qed.

Lemma rdot_comm (a b : vec3) : rdot a b = rdot b a.
Proof. destruct a as [[a1 a2] a3], b as [[b1 b2] b3]. cbn. ring. Qed.

(** Lagrange's identity. *)
Lemma rcross_norm_sqr (a b : vec3) :
  rdot (rcross a b) (rcross a b) = rdot a a * rdot b b - rdot a b * rdot a b.
Proof. destruct a as [[a1 a2] a3], b as [[b1 b2] b3]. cbn. ring. Qed.

Lemma rdet_cross_middle (a b : vec3) :
  rdet b (rcross a b) a = rdot a a * rdot b b - rdot a b * rdot a b.
Proof. destruct a as [[a1 a2] a3], b as [[b1 b2] b3]. cbn. ring. Qed.

Lemma rdot_rneg_l (a b : vec3) : rdot (rneg a) b = - rdot a b.
Proof. destruct a as [[a1 a2] a3], b as [[b1 b2] b3]. cbn. ring. Qed.

Lemma rdot_rneg_rneg (a : vec3) : rdot (rneg a) (rneg a) = rdot a a.
Proof. destruct a as [[a1 a2] a3]. cbn. ring. Qed.

Lemma rdot_rnormalize_l (a b : vec3) :
  rdot (rnormalize a) b = rdot a b / rnorm a.
Proof.
  destruct a as [[a1 a2] a3], b as [[b1 b2] b3].
  set (n := rnorm (a1, a2, a3)). cbn [rnormalize rdot]. fold n.
  unfold Rdiv. ring.
Qed.

Lemma rnormalize_unit (a : vec3) :
  rdot a a <> 0 -> rdot (rnormalize a) (rnormalize a) = 1.
Proof.
  intros H. pose proof (rnorm_pos a H) as Hn. pose proof (rnorm_sqr a) as Hs.
  rewrite rdot_rnormalize_l, rdot_comm, rdot_rnormalize_l.
  rewrite <- Hs. field. lra.
Qed.

Lemma rnormalize_of_unit (a : vec3) : rdot a a = 1 -> rnormalize a = a.
Proof.
  intros H. destruct a as [[x y] z]. unfold rnormalize, rnorm.
  rewrite H, sqrt_1. f_equal; [f_equal |]; field.
Qed.

Lemma rdot_self_zero (a : vec3) : rdot a a = 0 -> a = zero3.
Proof.
  destruct a as [[x y] z]. cbn. intros H. unfold zero3.
  assert (x = 0 /\ y = 0 /\ z = 0) as [-> [-> ->]] by (repeat split; nra).
  reflexivity.
Qed.

Lemma rcross_zero_r (a : vec3) : rcross a zero3 = zero3.
Proof. destruct a as [[x y] z]. unfold zero3. cbn. f_equal; [f_equal |]; ring. Qed.

(** The cross product with the normalized vector is the cross product
    scaled by the inverse norm. *)
Lemma rcross_rnormalize_r (a b : vec3) :
  rdot (rcross a (rnormalize b)) (rcross a (rnormalize b)) * rdot b b
  = rdot (rcross a b) (rcross a b).
Proof.
  pose proof (rnorm_sqr b) as Hs. rewrite <- Hs.
  destruct (Req_dec_T (rnorm b) 0) as [Hz | Hnz].
  - rewrite Hz, Rmult_0_r.
    assert (Hb : b = zero3) by (apply rdot_self_zero; rewrite <- Hs, Hz; ring).
    rewrite Hb, rcross_zero_r. cbn. ring.
  - destruct a as [[a1 a2] a3], b as [[b1 b2] b3].
    set (n := rnorm (b1, b2, b3)) in *. cbn [rnormalize rcross rdot]. fold n.
    field. exact Hnz.
Qed.

Section Frame.
Variables forward up_hint : vec3.
Hypothesis not_parallel : ~ parallel up_hint forward.

Lemma forward_nonzero : rdot forward forward <> 0.
Proof.
  intros H. apply not_parallel. unfold parallel.
  rewrite (rdot_self_zero forward H). apply rcross_zero_r.
Qed.

Lemma hint_cross_nonzero :
  rdot (rcross up_hint (rnormalize forward)) (rcross up_hint (rnormalize forward))
  <> 0.
Proof.
  intros H. apply not_parallel. unfold parallel. apply rdot_self_zero.
  rewrite <- rcross_rnormalize_r, H. ring.
Qed.

Lemma forward_unit : rdot (rnormalize forward) (rnormalize forward) = 1.
Proof. apply rnormalize_unit, forward_nonzero. Qed.

Lemma right_unit : rdot (rright forward up_hint) (rright forward up_hint) = 1.
Proof.
  unfold rright. rewrite rdot_rneg_rneg. apply rnormalize_unit, hint_cross_nonzero.
Qed.

Lemma right_forward_perp : rdot (rright forward up_hint) (rnormalize forward) = 0.
Proof.
  unfold rright. rewrite rdot_rneg_l, rdot_rnormalize_l, rdot_comm, rdot_cross_right.
  unfold Rdiv. ring.
Qed.

Lemma up_cross_unit :
  rdot (rcross (rnormalize forward) (rright forward up_hint))
       (rcross (rnormalize forward) (rright forward up_hint)) = 1.
Proof.
  rewrite rcross_norm_sqr, forward_unit, right_unit.
  rewrite (rdot_comm (rnormalize forward)), right_forward_perp. ring.
Qed.

Lemma rup_cross :
  rup forward up_hint = rcross (rnormalize forward) (rright forward up_hint).
Proof. unfold rup. apply rnormalize_of_unit, up_cross_unit. Qed.

Lemma up_unit : rdot (rup forward up_hint) (rup forward up_hint) = 1.
Proof. rewrite rup_cross. apply up_cross_unit. Qed.

Lemma right_up_perp : rdot (rright forward up_hint) (rup forward up_hint) = 0.
Proof. rewrite rup_cross. apply rdot_cross_right. Qed.

Lemma up_forward_perp : rdot (rup forward up_hint) (rnormalize forward) = 0.
Proof. rewrite rup_cross, rdot_comm. apply rdot_cross_left. Qed.

Lemma frame_det :
  rdet (rright forward up_hint) (rup forward up_hint) (rnormalize forward) = 1.
Proof.
  rewrite rup_cross, rdet_cross_middle, forward_unit, right_unit.
  rewrite (rdot_comm (rnormalize forward)), right_forward_perp. ring.
Qed.

(** On finite, non-degenerate arguments the pose is the homogeneous
    matrix of the real basis and the origin. *)
Lemma pose_matrix_finite (origin : vec3) :
  pose_matrix (fin3 forward) (fin3 origin) (fin3 up_hint)
  = homogeneous (rright forward up_hint) (rup forward up_hint)
      (rnormalize forward) origin.
Proof.
  assert (Hr : right_of (fin3 forward) (fin3 up_hint)
               = fin3 (rright forward up_hint)).
  { unfold right_of. rewrite normalize_row_fin3 by apply forward_nonzero.
    rewrite cross3_fin3, normalize_row_fin3 by apply hint_cross_nonzero.
    apply map_fneg_fin3. }
  assert (Hu : up_of (fin3 forward) (fin3 up_hint) = fin3 (rup forward up_hint)).
  { unfold up_of. rewrite Hr, normalize_row_fin3 by apply forward_nonzero.
    rewrite cross3_fin3. apply normalize_row_fin3.
    rewrite up_cross_unit. lra. }
  unfold pose_matrix, rotation_of, translation_of.
  rewrite Hr, Hu, normalize_row_fin3 by apply forward_nonzero.
  destruct (rright forward up_hint) as [[r1 r2] r3].
  destruct (rup forward up_hint) as [[p1 p2] p3].
  destruct (rnormalize forward) as [[n1 n2] n3].
  destruct origin as [[o1 o2] o3].
  unfold matmul, dot, column, fsum.
  cbn [fin3 homogeneous eye set_col set_block set_prefix zip3 list_set seq map
       nth hd length combine fold_right fst snd app skipn Nat.eqb fmul fadd].
  repeat (f_equal; try ring).
Qed.
End Frame.

(** ** The rotation block *)

Lemma dot_fin3 (a b : vec3) : dot (fin3 a) (fin3 b) = Fin (rdot a b).
Proof.
  destruct a as [[a1 a2] a3], b as [[b1 b2] b3]. unfold dot, fsum.
  cbn [fin3 combine map fst snd fold_right fmul fadd rdot]. f_equal. ring.
Qed.

Lemma norm_fin3_unit (a : vec3) : rdot a a = 1 -> norm (fin3 a) = Fin 1.
Proof. intros H. rewrite norm_fin3. unfold rnorm. rewrite H, sqrt_1. reflexivity. Qed.

Lemma rotation_block_homogeneous (a b c o : vec3) :
  column 0 (rotation_block (homogeneous a b c o)) = fin3 a
  /\ column 1 (rotation_block (homogeneous a b c o)) = fin3 b
  /\ column 2 (rotation_block (homogeneous a b c o)) = fin3 c.
Proof.
  destruct a as [[a1 a2] a3], b as [[b1 b2] b3], c as [[c1 c2] c3],
    o as [[o1 o2] o3].
  repeat split; reflexivity.
Qed.

Lemma det3_homogeneous (a b c o : vec3) :
  det3 (rotation_block (homogeneous a b c o)) = Fin (rdet a b c).
Proof.
  destruct a as [[a1 a2] a3], b as [[b1 b2] b3], c as [[c1 c2] c3],
    o as [[o1 o2] o3].
  cbn [homogeneous rotation_block map firstn det3 fmul fsub fadd fneg
       rdet rdot rcross].
  f_equal. ring.
Qed.

Lemma orthonormal_pose (f o u : vec3) :
  ~ parallel u f ->
  orthonormal (rotation_block (pose_matrix (fin3 f) (fin3 o) (fin3 u))).
Proof.
  intros H. rewrite pose_matrix_finite by exact H.
  destruct (rotation_block_homogeneous (rright f u) (rup f u) (rnormalize f) o)
    as [H0 [H1 H2]].
  unfold orthonormal. rewrite H0, H1, H2, !dot_fin3.
  rewrite right_up_perp, right_forward_perp, up_forward_perp by exact H.
  repeat split; apply norm_fin3_unit;
    [apply right_unit | apply up_unit | apply (forward_unit f u)]; exact H.
Qed.

Lemma create_cam2world_matrix_finite (l : list (vec3 * vec3)) (u : vec3) :
  create_cam2world_matrix (V2 (map (fun p => fin3 (fst p)) l))
    (V2 (map (fun p => fin3 (snd p)) l)) (V1 (fin3 u))
  = Ok (map (fun p => pose_matrix (fin3 (fst p)) (fin3 (snd p)) (fin3 u)) l).
Proof.
  apply (create_cam2world_matrix_batch l (fun p => fin3 (fst p))
           (fun p => fin3 (snd p)) (fin3 u)).
  - destruct u as [[? ?] ?]. reflexivity.
  - intros [[[? ?] ?] [[? ?] ?]] _. split; reflexivity.
Qed.

(** C3: for a batch of finite forward vectors none of which is parallel to
    the up hint (so none is the zero vector), and finite origins, the
    upper-left 3x3 block of every matrix [create_cam2world_matrix] returns
    is orthonormal: its columns (right, up, forward) have norm 1 and are
    pairwise perpendicular.  The same holds for one forward vector of
    shape (3,). *)
Theorem rotation_block_orthonormal (l : list (vec3 * vec3)) (up_hint : vec3) :
  (forall p, In p l -> ~ parallel up_hint (fst p)) ->
  (exists ms,
     create_cam2world_matrix (V2 (map (fun p => fin3 (fst p)) l))
       (V2 (map (fun p => fin3 (snd p)) l)) (V1 (fin3 up_hint)) = Ok ms
     /\ length ms = length l
     /\ Forall (fun m => orthonormal (rotation_block m)) ms)
  /\ (forall p, In p l ->
        exists ms,
          create_cam2world_matrix (V1 (fin3 (fst p))) (V1 (fin3 (snd p)))
            (V1 (fin3 up_hint)) = Ok ms
          /\ Forall (fun m => orthonormal (rotation_block m)) ms).
Proof.
  intros H. split.
  - rewrite create_cam2world_matrix_finite. eexists.
    split; [reflexivity |]. split; [apply length_map |].
    apply Forall_map, Forall_forall. intros p Hp.
    apply orthonormal_pose. apply H. exact Hp.
  - intros p Hp.
    rewrite create_cam2world_matrix_unbatched by apply length_fin3.
    eexists. split; [reflexivity |].
    repeat constructor; apply orthonormal_pose; apply H; exact Hp.
Qed.

Lemma not_parallel_default_up : ~ parallel (0, -1, 0) (0, 0, -1).
Proof.
  unfold parallel, rcross, zero3. intros H. injection H as H1 _ _. lra.
Qed.

Lemma rotation_block_orthonormal_witness :
  exists ms,
    create_cam2world_matrix (V2 [fin3 (0, 0, -1)]) (V2 [fin3 (0, 0, 1)])
      default_up_vector = Ok ms
    /\ length ms = 1%nat
    /\ Forall (fun m => orthonormal (rotation_block m)) ms.
Proof.
  refine (proj1 (rotation_block_orthonormal [((0, 0, -1), (0, 0, 1))] (0, -1, 0) _)).
  intros p [<- | []]. exact not_parallel_default_up.
Defined.

(** C4: under the same conditions the determinant of the 3x3 block is 1:
    (right, up, forward) is a right-handed basis. *)
Theorem rotation_block_determinant (l : list (vec3 * vec3)) (up_hint : vec3) :
  (forall p, In p l -> ~ parallel up_hint (fst p)) ->
  (exists ms,
     create_cam2world_matrix (V2 (map (fun p => fin3 (fst p)) l))
       (V2 (map (fun p => fin3 (snd p)) l)) (V1 (fin3 up_hint)) = Ok ms
     /\ length ms = length l
     /\ Forall (fun m => det3 (rotation_block m) = Fin 1) ms)
  /\ (forall p, In p l ->
        exists ms,
          create_cam2world_matrix (V1 (fin3 (fst p))) (V1 (fin3 (snd p)))
            (V1 (fin3 up_hint)) = Ok ms
          /\ Forall (fun m => det3 (rotation_block m) = Fin 1) ms).
Proof.
  intros H.
  assert (Hdet : forall p, In p l ->
            det3 (rotation_block
                    (pose_matrix (fin3 (fst p)) (fin3 (snd p)) (fin3 up_hint)))
            = Fin 1).
  { intros p Hp. rewrite pose_matrix_finite by (apply H; exact Hp).
    rewrite det3_homogeneous, frame_det by (apply H; exact Hp). reflexivity. }
  split.
  - rewrite create_cam2world_matrix_finite. eexists.
    split; [reflexivity |]. split; [apply length_map |].
    apply Forall_map, Forall_forall. exact Hdet.
  - intros p Hp.
    rewrite create_cam2world_matrix_unbatched by apply length_fin3.
    eexists. split; [reflexivity |].
    repeat constructor; apply Hdet; exact Hp.
Qed.

Lemma rotation_block_determinant_witness :
  exists ms,
    create_cam2world_matrix (V2 [fin3 (0, 0, -1)]) (V2 [fin3 (0, 0, 1)])
      default_up_vector = Ok ms
    /\ length ms = 1%nat
    /\ Forall (fun m => det3 (rotation_block m) = Fin 1) ms.
Proof.
  refine (proj1 (rotation_block_determinant [((0, 0, -1), (0, 0, 1))] (0, -1, 0) _)).
  intros p [<- | []]. exact not_parallel_default_up.
Defined.

(** ** The translation column *)

Lemma fmul_1_r (a : fval) : fmul a (Fin 1) = a.
Proof.
  destruct a as [x | | |]; cbn; unfold inf_of_sign.
  - f_equal. ring.
  - destruct (Req_dec_T 1 0) as [E | _]; [lra |].
    destruct (Rlt_dec 0 1) as [_ | N]; [reflexivity | lra].
  - destruct (Req_dec_T 1 0) as [E | _]; [lra |].
    destruct (Rlt_dec 0 1) as [_ | N]; [reflexivity | lra].
  - reflexivity.
Qed.

Lemma fadd_0_r (a : fval) : fadd a (Fin 0) = a.
Proof. destruct a as [x | | |]; cbn; try reflexivity. f_equal. ring. Qed.

Lemma fadd_zero_l (z : R) (a : fval) : z = 0 -> fadd (Fin z) a = a.
Proof. intros ->. destruct a as [x | | |]; cbn; try reflexivity. f_equal. ring. Qed.

Lemma translation_entry (a b c : R) (o : fval) :
  a = 0 -> b = 0 -> c = 0 ->
  fadd (Fin a) (fadd (Fin b) (fadd (Fin c) (fadd (fmul o (Fin 1)) (Fin 0)))) = o.
Proof.
  intros Ha Hb Hc. rewrite fadd_0_r, fmul_1_r.
  rewrite (fadd_zero_l c), (fadd_zero_l b), (fadd_zero_l a) by assumption.
  reflexivity.
Qed.

(** Whatever the values, the translation column of a pose is the origin:
    column 3 of the rotation matrix is (0, 0, 0, 1). *)
Lemma translation_column_pose (f o u : list fval) :
  length f = 3%nat -> length o = 3%nat -> length u = 3%nat ->
  translation_column (pose_matrix f o u) = o.
Proof.
  intros Hf Ho Hu. unfold pose_matrix, rotation_of, translation_of.
  pose proof (length_right_of f u Hf Hu) as Hr.
  pose proof (length_up_of f u Hf Hu) as Hp.
  pose proof (length_normalize_row f) as Hn. rewrite Hf in Hn.
  destruct (right_of f u) as [| r1 [| r2 [| r3 [| r4 r]]]]; try discriminate Hr.
  destruct (up_of f u) as [| p1 [| p2 [| p3 [| p4 p]]]]; try discriminate Hp.
  destruct (normalize_row f) as [| n1 [| n2 [| n3 [| n4 n]]]]; try discriminate Hn.
  destruct o as [| o1 [| o2 [| o3 [| o4 o]]]]; try discriminate Ho.
  unfold translation_column, matmul, dot, column, fsum.
  cbn [eye set_col set_block set_prefix zip3 list_set seq map firstn
       nth hd length combine fold_right fst snd app skipn Nat.eqb fmul fadd].
  repeat f_equal; apply translation_entry; ring.
Qed.


Lemma matvec_homogeneous_origin (a b c o : vec3) :
  matvec (homogeneous a b c o) [Fin 0; Fin 0; Fin 0; Fin 1] = fin3 o ++ [Fin 1].
Proof.
  destruct a as [[a1 a2] a3], b as [[b1 b2] b3], c as [[c1 c2] c3],
    o as [[o1 o2] o3].
  unfold matvec, dot, fsum.
  cbn [homogeneous fin3 map combine fst snd fold_right fmul fadd app].
  repeat (f_equal; try ring).
Qed.






(** ** The example of the class docstring

    [LookAtPoseSampler.sample(math.pi/2, math.pi/2, torch.tensor([0, 0, 0]),
    radius=1)]: the camera is at (0, 0, 1) and looks along (0, 0, -1). *)
Example docstring_origin :
  get_origin (S0 (Fin (PI / 2))) (S0 (Fin (PI / 2))) (S0 (Fin 1))
  = Ok [Fin 0; Fin 0; Fin 1].
Proof.
  pose proof PI2_1 as HPI. pose proof eps_pos as He. unfold eps in He.
  rewrite get_origin_scalar. unfold spherical_point. cbn [fclamp].
  rewrite Rclamp_inside by (unfold eps; lra).
  rewrite phi_finite by (unfold eps; lra).
  replace (1 - 2 * (PI / 2 / PI)) with 0 by (field; lra).
  rewrite acos_0. cbn [fsin fcos fsub fneg fadd fmul].
  replace (PI + - (PI / 2)) with (PI / 2) by field.
  rewrite sin_PI2, cos_PI2. repeat (f_equal; try ring).
Qed.

Example docstring_forward (h v r : scalars) :
  get_forward_vector (V1 [Fin 0; Fin 0; Fin 0]) h v r
    (Some (V1 [Fin 0; Fin 0; Fin 1]))
  = Ok (V1 [Fin 0; Fin 0; Fin (-1)]).
Proof.
  rewrite get_forward_vector_unbatched by reflexivity. do 2 f_equal.
  unfold forward_of, row_sub. cbn [combine map fst snd fsub fneg fadd].
  replace [Fin (0 + - 0); Fin (0 + - 0); Fin (0 + - (1))] with (fin3 (0, 0, -1))
    by (cbn; repeat (f_equal; try ring)).
  rewrite normalize_row_fin3 by (cbn; lra).
  unfold rnormalize, rnorm.
  replace (rdot (0, 0, -1) (0, 0, -1)) with 1 by (cbn; ring).
  rewrite sqrt_1. cbn. repeat (f_equal; try field).
Qed.


(** * Further properties of the module *)

(** ** [normalize_vecs] on vectors of any size *)

Lemma rsumsq_cons (x : R) (l : list R) : rsumsq (x :: l) = x * x + rsumsq l.
Proof. reflexivity. Qed.

Lemma rsumsq_nonneg (l : list R) : 0 <= rsumsq l.
Proof.
  induction l as [| x l IH]; [cbn; lra |]. rewrite rsumsq_cons. nra.
Qed.

Lemma rsumsq_zero (l : list R) : rsumsq l = 0 -> Forall (fun x => x = 0) l.
Proof.
  induction l as [| x l IH]; [constructor |].
  rewrite rsumsq_cons. intros H. pose proof (rsumsq_nonneg l).
  constructor; [nra | apply IH; nra].
Qed.

Lemma fsum_squares_Fin (l : list R) :
  fsum (map (fun x => fmul x x) (map Fin l)) = Fin (rsumsq l).
Proof.
  unfold fsum. induction l as [| x l IH]; [reflexivity |].
  cbn [map fold_right]. rewrite IH, rsumsq_cons. reflexivity.
Qed.

Lemma norm_Fin_list (l : list R) : norm (map Fin l) = Fin (sqrt (rsumsq l)).
Proof.
  unfold norm. rewrite fsum_squares_Fin. apply fsqrt_Fin, rsumsq_nonneg.
Qed.

Lemma sqrt_rsumsq_pos (l : list R) : rsumsq l <> 0 -> 0 < sqrt (rsumsq l).
Proof. intros H. apply sqrt_lt_R0. pose proof (rsumsq_nonneg l). lra. Qed.

Lemma normalize_row_Fin_list (l : list R) :
  rsumsq l <> 0 ->
  normalize_row (map Fin l) = map Fin (map (fun x => x / sqrt (rsumsq l)) l).
Proof.
  intros H. pose proof (sqrt_rsumsq_pos l H) as Hn.
  unfold normalize_row. rewrite norm_Fin_list, !map_map.
  apply map_ext. intros x. apply fdiv_Fin. lra.
Qed.

Lemma normalize_row_zero_list (l : list R) :
  rsumsq l = 0 -> normalize_row (map Fin l) = map (fun _ => NaN) l.
Proof.
  intros H. unfold normalize_row. rewrite norm_Fin_list, H, sqrt_0, map_map.
  apply map_ext_in. intros x Hx.
  pose proof (rsumsq_zero l H) as Hz. rewrite Forall_forall in Hz.
  rewrite (Hz x Hx). apply fdiv_zero_zero.
Qed.

Lemma normalize_row_NaN_list {A : Type} (l : list A) :
  normalize_row (map (fun _ => NaN) l) = map (fun _ => NaN) l.
Proof. unfold normalize_row. rewrite map_map. reflexivity. Qed.

Lemma rsumsq_div (l : list R) (n : R) :
  n <> 0 -> rsumsq (map (fun x => x / n) l) = rsumsq l / (n * n).
Proof.
  intros Hn. induction l as [| x l IH].
  - cbn. field. exact Hn.
  - cbn [map]. rewrite !rsumsq_cons, IH. field. exact Hn.
Qed.

Lemma rsumsq_normalized (l : list R) :
  rsumsq l <> 0 -> rsumsq (map (fun x => x / sqrt (rsumsq l)) l) = 1.
Proof.
  intros H. pose proof (sqrt_rsumsq_pos l H) as Hn.
  rewrite rsumsq_div by lra.
  rewrite sqrt_sqrt by apply rsumsq_nonneg. field. exact H.
Qed.

(** X1: a finite vector of any size whose norm is not zero is normalized
    to a vector of norm 1, alone or as a row of a batch. *)
Theorem normalize_vecs_unit_norm (l : list R) (rows : list (list R)) :
  rsumsq l <> 0 ->
  Forall (fun r => rsumsq r <> 0) rows ->
  (exists n, normalize_vecs (V1 (map Fin l)) = V1 n /\ norm n = Fin 1)
  /\ (exists ns,
        normalize_vecs (V2 (map (map Fin) rows)) = V2 ns
        /\ length ns = length rows
        /\ Forall (fun n => norm n = Fin 1) ns).
Proof.
  intros Hl Hrows.
  assert (Hunit : forall r, rsumsq r <> 0 -> norm (normalize_row (map Fin r)) = Fin 1).
  { intros r Hr. rewrite normalize_row_Fin_list by exact Hr.
    rewrite norm_Fin_list, rsumsq_normalized by exact Hr.
    rewrite sqrt_1. reflexivity. }
  split.
  - eexists. split; [reflexivity |]. apply Hunit. exact Hl.
  - eexists. split; [reflexivity |]. split; [rewrite !length_map; reflexivity |].
    rewrite map_map. apply Forall_map.
    eapply Forall_impl; [| exact Hrows]. exact Hunit.
Qed.

Lemma normalize_vecs_unit_norm_witness :
  exists n, normalize_vecs (V1 (map Fin [3; 4])) = V1 n /\ norm n = Fin 1.
Proof.
  refine (proj1 (normalize_vecs_unit_norm [3; 4] [[1]; [0; 2]] _ _)).
  - cbn. lra.
  - repeat constructor; cbn; lra.
Defined.

Lemma normalize_row_idempotent (l : list R) :
  normalize_row (normalize_row (map Fin l)) = normalize_row (map Fin l).
Proof.
  destruct (Req_dec_T (rsumsq l) 0) as [Hz | Hnz].
  - rewrite normalize_row_zero_list by exact Hz. apply normalize_row_NaN_list.
  - rewrite normalize_row_Fin_list by exact Hnz.
    rewrite normalize_row_Fin_list by (rewrite rsumsq_normalized by exact Hnz; lra).
    rewrite rsumsq_normalized by exact Hnz. rewrite sqrt_1.
    f_equal. rewrite <- (map_id (map _ l)) at 2.
    apply map_ext. intros x. field.
Qed.

(** X2: on finite vectors normalizing twice is normalizing once, also for
    the zero vector (which stays [NaN]); [create_cam2world_matrix]
    normalizes the forward vectors [get_forward_vector] has normalized
    already and does not change them. *)
Theorem normalize_vecs_idempotent (l : list R) (rows : list (list R)) :
  normalize_vecs (normalize_vecs (V1 (map Fin l))) = normalize_vecs (V1 (map Fin l))
  /\ normalize_vecs (normalize_vecs (V2 (map (map Fin) rows)))
     = normalize_vecs (V2 (map (map Fin) rows)).
Proof.
  split; cbn [normalize_vecs vmap]; f_equal.
  - apply normalize_row_idempotent.
  - rewrite !map_map. apply map_ext. intros r. apply normalize_row_idempotent.
Qed.

Lemma rsumsq_scale (k : R) (l : list R) :
  rsumsq (map (Rmult k) l) = k * k * rsumsq l.
Proof.
  induction l as [| x l IH]; [cbn; ring |].
  cbn [map]. rewrite !rsumsq_cons, IH. ring.
Qed.

Lemma normalize_row_scale (k : R) (l : list R) :
  0 < k -> normalize_row (map Fin (map (Rmult k) l)) = normalize_row (map Fin l).
Proof.
  intros Hk. destruct (Req_dec_T (rsumsq l) 0) as [Hz | Hnz].
  - rewrite !normalize_row_zero_list;
      [rewrite map_map; reflexivity | exact Hz | rewrite rsumsq_scale, Hz; ring].
  - assert (Hs : rsumsq (map (Rmult k) l) <> 0).
    { rewrite rsumsq_scale. apply Rmult_integral_contrapositive_currified; [nra | exact Hnz]. }
    pose proof (sqrt_rsumsq_pos l Hnz) as Hn.
    rewrite !normalize_row_Fin_list by assumption.
    f_equal. rewrite map_map. apply map_ext. intros x.
    rewrite rsumsq_scale, sqrt_mult by (try apply rsumsq_nonneg; nra).
    rewrite sqrt_square by lra. field. split; lra.
Qed.

(** X3: multiplying a finite vector by a positive factor does not change
    its normalization. *)
Theorem normalize_vecs_scale_invariant (k : R) (l : list R) (rows : list (list R)) :
  0 < k ->
  normalize_vecs (V1 (map Fin (map (Rmult k) l))) = normalize_vecs (V1 (map Fin l))
  /\ normalize_vecs (V2 (map (fun r => map Fin (map (Rmult k) r)) rows))
     = normalize_vecs (V2 (map (map Fin) rows)).
Proof.
  intros Hk. split; cbn [normalize_vecs vmap]; f_equal.
  - apply normalize_row_scale. exact Hk.
  - rewrite !map_map. apply map_ext. intros r. apply normalize_row_scale. exact Hk.
Qed.

Lemma normalize_vecs_scale_invariant_witness :
  normalize_vecs (V1 (map Fin (map (Rmult 2) [3; 4]))) = normalize_vecs (V1 (map Fin [3; 4])).
Proof.
  refine (proj1 (normalize_vecs_scale_invariant 2 [3; 4] [] _)). lra.
Defined.


(** ** Rescaling the forward vectors and the up hint *)







(** ** Where the camera looks *)

Lemma row_sub_fin3 (a b : vec3) : row_sub (fin3 a) (fin3 b) = fin3 (rsub a b).
Proof. destruct a as [[a1 a2] a3], b as [[b1 b2] b3]. reflexivity. Qed.

Lemma parallel_rnormalize (u d : vec3) :
  parallel u (rnormalize d) -> parallel u d.
Proof.
  unfold parallel. intros H. apply rdot_self_zero.
  rewrite <- rcross_rnormalize_r, H. cbn. ring.
Qed.

Lemma rnormalize_idempotent (d : vec3) :
  rdot d d <> 0 -> rnormalize (rnormalize d) = rnormalize d.
Proof. intros H. apply rnormalize_of_unit, rnormalize_unit. exact H. Qed.

Lemma not_parallel_nonzero (u d : vec3) : ~ parallel u d -> rdot d d <> 0.
Proof. apply forward_nonzero. Qed.

(** The pose built from the forward vector of a target. *)
Lemma pose_matrix_look_at (t o u : vec3) :
  ~ parallel u (rsub t o) ->
  pose_matrix (forward_of (fin3 t) (fin3 o)) (fin3 o) (fin3 u)
  = homogeneous (rright (rsub t o) u) (rup (rsub t o) u)
      (rnormalize (rsub t o)) o.
Proof.
  intros H. pose proof (not_parallel_nonzero _ _ H) as Hd.
  unfold forward_of. rewrite row_sub_fin3, normalize_row_fin3 by exact Hd.
  rewrite pose_matrix_finite
    by (intros Hp; apply H, parallel_rnormalize; exact Hp).
  unfold rup, rright. rewrite !rnormalize_idempotent by exact Hd. reflexivity.
Qed.

Lemma matvec_homogeneous_depth (a b c o : vec3) (d : R) :
  matvec (homogeneous a b c o) [Fin 0; Fin 0; Fin d; Fin 1]
  = fin3 (radd o (rscale d c)) ++ [Fin 1].
Proof.
  destruct a as [[a1 a2] a3], b as [[b1 b2] b3], c as [[c1 c2] c3],
    o as [[o1 o2] o3].
  unfold matvec, dot, fsum.
  cbn [homogeneous fin3 radd rscale map combine fst snd fold_right fmul fadd app].
  repeat (f_equal; try ring).
Qed.

Lemma origin_plus_forward (t o : vec3) :
  rdot (rsub t o) (rsub t o) <> 0 ->
  radd o (rscale (rnorm (rsub t o)) (rnormalize (rsub t o))) = t.
Proof.
  intros H. pose proof (rnorm_pos _ H) as Hn.
  destruct t as [[t1 t2] t3], o as [[o1 o2] o3].
  cbn [rsub] in *.
  set (n := rnorm (t1 - o1, t2 - o2, t3 - o3)) in *.
  cbn [rnormalize rscale radd]. fold n.
  f_equal; [f_equal |]; field; lra.
Qed.

(** ** [get_origin] on finite arguments *)

Lemma rclamp_bounds (v : R) : eps <= rclamp v <= PI - eps.
Proof.
  pose proof eps_lt_PI_minus_eps as H. unfold rclamp, Rmin, Rmax.
  destruct (Rle_dec v eps); destruct (Rle_dec _ _); lra.
Qed.

Lemma unit_interval_of_clamp (v : R) : -1 <= 1 - 2 * (rclamp v / PI) <= 1.
Proof.
  pose proof (rclamp_bounds v) as [H1 H2]. pose proof PI_RGT_0 as HPI.
  pose proof eps_pos as He.
  assert (0 <= rclamp v / PI <= 1).
  { split.
    - apply Rmult_le_pos; [lra | left; apply Rinv_0_lt_compat; lra].
    - apply (Rmult_le_reg_r PI); [lra |]. unfold Rdiv.
      rewrite Rmult_assoc, Rinv_l by lra. lra. }
  lra.
Qed.

Lemma spherical_point_finite (theta v r : R) :
  spherical_point (Fin theta) (Fin v) (Fin r) = fin3 (rorigin theta v r).
Proof.
  unfold spherical_point. cbn [fclamp]. fold (rclamp v).
  rewrite phi_finite by apply rclamp_bounds. reflexivity.
Qed.

Lemma rdot_rorigin (theta v r : R) :
  rdot (rorigin theta v r) (rorigin theta v r) = r * r.
Proof.
  unfold rorigin. cbn [rdot].
  pose proof (sin_cos_square (rphi v)) as Hp.
  pose proof (sin_cos_square (PI - theta)) as Ht.
  replace (r * sin (rphi v) * cos (PI - theta) * (r * sin (rphi v) * cos (PI - theta))
           + r * cos (rphi v) * (r * cos (rphi v))
           + r * sin (rphi v) * sin (PI - theta) * (r * sin (rphi v) * sin (PI - theta)))
    with (r * r * (sin (rphi v) * sin (rphi v)
                   * (sin (PI - theta) * sin (PI - theta)
                      + cos (PI - theta) * cos (PI - theta))
                   + cos (rphi v) * cos (rphi v))) by ring.
  rewrite Ht, Rmult_1_r, Hp. ring.
Qed.

Lemma cos_PI_minus (x : R) : cos (PI - x) = - cos x.
Proof. rewrite cos_minus, cos_PI, sin_PI. ring. Qed.

Lemma get_origin_finite_value (theta v r : R) :
  get_origin (S0 (Fin theta)) (S0 (Fin v)) (S0 (Fin r))
  = Ok (fin3 (rorigin theta v r)).
Proof. rewrite get_origin_scalar, spherical_point_finite. reflexivity. Qed.

Lemma rorigin_closed_form (theta v r : R) :
  rorigin theta v r
  = (- (r * sin (rphi v) * cos theta),
     r * (1 - 2 * (rclamp v / PI)),
     r * sin (rphi v) * sin theta).
Proof.
  unfold rorigin, rphi at 2.
  rewrite cos_acos by apply unit_interval_of_clamp.
  rewrite cos_PI_minus, sin_PI_x. f_equal. f_equal. ring.
Qed.

(** X5: for every finite horizontal angle, vertical angle and radius,
    in range or not, [get_origin] returns a finite point at distance [|r|]
    from the world origin; its height is linear in the clamped vertical
    angle, [y = r (1 - 2 v / pi)], and the point is
    [(- r sin(phi) cos(theta), r cos(phi), r sin(phi) sin(theta))]. *)
Theorem get_origin_finite (theta v r : R) :
  get_origin (S0 (Fin theta)) (S0 (Fin v)) (S0 (Fin r))
  = Ok (fin3 (rorigin theta v r))
  /\ norm (fin3 (rorigin theta v r)) = Fin (Rabs r)
  /\ rorigin theta v r
     = (- (r * sin (rphi v) * cos theta),
        r * (1 - 2 * (rclamp v / PI)),
        r * sin (rphi v) * sin theta).
Proof.
  split; [| split].
  - apply get_origin_finite_value.
  - rewrite norm_fin3. unfold rnorm. rewrite rdot_rorigin.
    f_equal. apply sqrt_Rsqr_abs.
  - apply rorigin_closed_form.
Qed.

(** X6: [get_origin] is periodic in the horizontal angle with period
    [2 pi], and negating the horizontal angle mirrors the point in the
    plane [z = 0]. *)
Theorem get_origin_horizontal_symmetry (theta v r : R) :
  get_origin (S0 (Fin (theta + 2 * PI))) (S0 (Fin v)) (S0 (Fin r))
  = get_origin (S0 (Fin theta)) (S0 (Fin v)) (S0 (Fin r))
  /\ (forall x y z,
        get_origin (S0 (Fin theta)) (S0 (Fin v)) (S0 (Fin r))
        = Ok [Fin x; Fin y; Fin z] ->
        get_origin (S0 (Fin (- theta))) (S0 (Fin v)) (S0 (Fin r))
        = Ok [Fin x; Fin y; Fin (- z)]).
Proof.
  pose proof (get_origin_finite_value theta v r) as H1.
  pose proof (rorigin_closed_form theta v r) as H3.
  pose proof (get_origin_finite_value (theta + 2 * PI) v r) as H1'.
  pose proof (rorigin_closed_form (theta + 2 * PI) v r) as H3'.
  pose proof (get_origin_finite_value (- theta) v r) as H1n.
  pose proof (rorigin_closed_form (- theta) v r) as H3n.
  split.
  - rewrite H1, H1', H3, H3'. do 2 f_equal.
    replace (theta + 2 * PI) with (theta + 2 * INR 1 * PI) by (cbn; ring).
    rewrite cos_period, sin_period. reflexivity.
  - intros x y z H. rewrite H1, H3 in H. rewrite H1n, H3n.
    cbn [fin3] in *. injection H as <- <- <-.
    rewrite cos_neg, sin_neg. repeat (f_equal; try ring).
Qed.

Lemma get_origin_horizontal_symmetry_witness :
  get_origin (S0 (Fin (- (PI / 2)))) (S0 (Fin (PI / 2))) (S0 (Fin 1))
  = Ok [Fin 0; Fin 0; Fin (- 1)].
Proof.
  apply (get_origin_horizontal_symmetry (PI / 2) (PI / 2) 1).
  exact docstring_origin.
Defined.

(** X7: the pose [sample] returns looks at the target.  For finite
    arguments whose up hint is not parallel to the line from the camera
    origin to the target (so the target is not the origin), each of the
    three matrices maps the camera-space origin to the point of
    [get_origin] and the point at depth [d] on the camera's forward axis,
    [d] the distance from the origin to the target, to the target. *)
Theorem sample_looks_at_target (theta v r : R) (target up_hint : vec3)
    (dev : device) :
  ~ parallel up_hint (rsub target (rorigin theta v r)) ->
  exists m,
    sample (S0 (Fin theta)) (S0 (Fin v)) (V1 (fin3 target)) (S0 (Fin r))
      (V1 (fin3 up_hint)) dev = Ok [m; m; m]
    /\ matvec m [Fin 0; Fin 0; Fin 0; Fin 1]
       = fin3 (rorigin theta v r) ++ [Fin 1]
    /\ matvec m [Fin 0; Fin 0; Fin (rnorm (rsub target (rorigin theta v r))); Fin 1]
       = fin3 target ++ [Fin 1]
    /\ column 2 (rotation_block m)
       = fin3 (rnormalize (rsub target (rorigin theta v r))).
Proof.
  intros H. rewrite sample_unbatched by apply length_fin3. cbv zeta.
  rewrite spherical_point_finite, pose_matrix_look_at by exact H.
  eexists. split; [reflexivity |]. split; [| split].
  - apply matvec_homogeneous_origin.
  - rewrite matvec_homogeneous_depth, origin_plus_forward; [reflexivity |].
    apply (not_parallel_nonzero up_hint). exact H.
  - apply rotation_block_homogeneous.
Qed.

Lemma rorigin_docstring : rorigin (PI / 2) (PI / 2) 1 = (0, 0, 1).
Proof.
  pose proof docstring_origin as H.
  pose proof (get_origin_finite_value (PI / 2) (PI / 2) 1) as H1.
  rewrite H1 in H. unfold rorigin in *. cbn [fin3] in H.
  injection H as Hx Hy Hz. rewrite Hx, Hy, Hz. reflexivity.
Qed.

Lemma not_parallel_docstring :
  ~ parallel (0, -1, 0) (rsub (0, 0, 0) (rorigin (PI / 2) (PI / 2) 1)).
Proof.
  rewrite rorigin_docstring.
  unfold parallel, rsub, rcross, zero3. intros H. injection H as H _ _. lra.
Qed.

Lemma sample_looks_at_target_witness :
  exists m,
    sample (S0 (Fin (PI / 2))) (S0 (Fin (PI / 2))) (V1 (fin3 (0, 0, 0)))
      (S0 (Fin 1)) (V1 (fin3 (0, -1, 0))) Cpu = Ok [m; m; m]
    /\ matvec m [Fin 0; Fin 0; Fin 0; Fin 1]
       = fin3 (rorigin (PI / 2) (PI / 2) 1) ++ [Fin 1]
    /\ matvec m [Fin 0; Fin 0;
                 Fin (rnorm (rsub (0, 0, 0) (rorigin (PI / 2) (PI / 2) 1))); Fin 1]
       = fin3 (0, 0, 0) ++ [Fin 1]
    /\ column 2 (rotation_block m)
       = fin3 (rnormalize (rsub (0, 0, 0) (rorigin (PI / 2) (PI / 2) 1))).
Proof.
  apply (sample_looks_at_target (PI / 2) (PI / 2) 1 (0, 0, 0) (0, -1, 0) Cpu).
  exact not_parallel_docstring.
Defined.

(** ** The basis and the up hint *)

Lemma rdot_rneg_r (a b : vec3) : rdot a (rneg b) = - rdot a b.
Proof. destruct a as [[a1 a2] a3], b as [[b1 b2] b3]. cbn. ring. Qed.

Lemma rdot_cross_rneg (n x u : vec3) :
  rdot (rcross n (rneg x)) u = - rdot x (rcross u n).
Proof.
  destruct n as [[n1 n2] n3], x as [[x1 x2] x3], u as [[u1 u2] u3]. cbn. ring.
Qed.

Lemma rdot_rnormalize_self (c : vec3) :
  rdot c c <> 0 -> rdot (rnormalize c) c = rnorm c.
Proof.
  intros H. pose proof (rnorm_pos c H) as Hn. pose proof (rnorm_sqr c) as Hs.
  rewrite rdot_rnormalize_l, <- Hs. field. lra.
Qed.

Lemma right_hint_perp (f u : vec3) : rdot (rright f u) u = 0.
Proof.
  unfold rright. rewrite rdot_rneg_l, rdot_rnormalize_l, rdot_comm, rdot_cross_left.
  unfold Rdiv. ring.
Qed.

Lemma up_hint_dot (f u : vec3) :
  ~ parallel u f ->
  rdot (rup f u) u = - rnorm (rcross u (rnormalize f)).
Proof.
  intros H. rewrite rup_cross by exact H. unfold rright.
  rewrite rdot_cross_rneg, rdot_rnormalize_self; [reflexivity |].
  apply hint_cross_nonzero. exact H.
Qed.

(** X8: the camera has no roll about the up hint, and its up axis points
    away from it.  For finite, non-degenerate arguments the right column
    of the rotation block is perpendicular to the up hint, and the dot
    product of the up column with the up hint is negative: minus the norm
    of the cross product of the up hint and the unit forward vector. *)
Theorem up_column_opposes_hint (f o u : vec3) :
  ~ parallel u f ->
  exists m,
    create_cam2world_matrix (V2 [fin3 f]) (V2 [fin3 o]) (V1 (fin3 u)) = Ok [m]
    /\ dot (column 0 (rotation_block m)) (fin3 u) = Fin 0
    /\ dot (column 1 (rotation_block m)) (fin3 u)
       = Fin (- rnorm (rcross u (rnormalize f)))
    /\ 0 < rnorm (rcross u (rnormalize f)).
Proof.
  intros H.
  pose proof (create_cam2world_matrix_finite [(f, o)] u) as Hc.
  cbn [map fst snd] in Hc. rewrite Hc.
  rewrite pose_matrix_finite by exact H.
  destruct (rotation_block_homogeneous (rright f u) (rup f u) (rnormalize f) o)
    as [H0 [H1 _]].
  eexists. split; [reflexivity |]. rewrite H0, H1, !dot_fin3.
  rewrite right_hint_perp, up_hint_dot by exact H.
  repeat split. apply rnorm_pos, hint_cross_nonzero. exact H.
Qed.

Lemma up_column_opposes_hint_witness :
  exists m,
    create_cam2world_matrix (V2 [fin3 (0, 0, -1)]) (V2 [fin3 (0, 0, 1)])
      (V1 (fin3 (0, -1, 0))) = Ok [m]
    /\ dot (column 0 (rotation_block m)) (fin3 (0, -1, 0)) = Fin 0
    /\ dot (column 1 (rotation_block m)) (fin3 (0, -1, 0))
       = Fin (- rnorm (rcross (0, -1, 0) (rnormalize (0, 0, -1))))
    /\ 0 < rnorm (rcross (0, -1, 0) (rnormalize (0, 0, -1))).
Proof.
  apply (up_column_opposes_hint (0, 0, -1) (0, 0, 1) (0, -1, 0)).
  exact not_parallel_default_up.
Defined.

(** ** Which batches [get_origin] accepts *)

Lemma bind_Ok_inv {A B : Type} (c : result A) (k : A -> result B) (b : B) :
  bind c k = Ok b -> exists a, c = Ok a /\ k a = Ok b.
Proof.
  destruct c as [a | e]; cbn; [| discriminate]. intros H. exists a. auto.
Qed.

Lemma single_smap (f : fval -> fval) (s : scalars) : single (smap f s) <-> single s.
Proof. destruct s as [x | l]; cbn; [tauto | rewrite length_map; tauto]. Qed.

Lemma setitem_slice1_single (t t' : list fval) (i : nat) (rhs : scalars) :
  setitem_slice1 t i rhs = Ok t' -> single rhs.
Proof.
  destruct rhs as [x | [| x [| y l]]]; cbn; try discriminate; auto.
Qed.

Lemma broadcast2_single {A B C : Type} (f : A -> B -> result C)
    (xs : list A) (ys : list B) (r : list C) :
  broadcast2 f xs ys = Ok r -> length r = 1%nat ->
  length xs = 1%nat /\ length ys = 1%nat.
Proof.
  unfold broadcast2. intros H Hr.
  destruct xs as [| x [| x' xs]]; destruct ys as [| y [| y' ys]];
    try (destruct (Nat.eqb _ _) eqn:E; [| discriminate H]);
    apply mapM_length in H; rewrite Hr in H; cbn in H;
    try discriminate H; try (split; reflexivity).
Qed.

Lemma sbin_single (f : fval -> fval -> fval) (a b c : scalars) :
  sbin f a b = Ok c -> single c -> single a /\ single b.
Proof.
  destruct a as [x | xs], b as [y | ys]; cbn.
  - intros _ _. split; exact I.
  - intros H. injection H as <-. cbn. rewrite length_map. auto.
  - intros H. injection H as <-. cbn. rewrite length_map. auto.
  - destruct (broadcast2 _ xs ys) as [r |] eqn:E; cbn; [| discriminate].
    intros H. injection H as <-. cbn. apply (broadcast2_single _ _ _ _ E).
Qed.

Lemma get_origin_single (h v r : scalars) :
  single h -> single v -> single r ->
  get_origin h v r
  = Ok (spherical_point (the_element h) (the_element v) (the_element r)).
Proof.
  intros Hh Hv Hr.
  destruct h as [h | [| h [| ? ?]]]; try discriminate Hh;
    destruct v as [v | [| v [| ? ?]]]; try discriminate Hv;
    destruct r as [r | [| r [| ? ?]]]; try discriminate Hr;
    reflexivity.
Qed.

Lemma runtime_sbin (f : fval -> fval -> fval) (a b : scalars) :
  runtime_only (sbin f a b).
Proof.
  destruct a, b; cbn; try apply runtime_Ok.
  apply runtime_bind; [apply runtime_broadcast2 |]; intros; apply runtime_Ok.
Qed.

Lemma runtime_setitem_slice1 (t : list fval) (i : nat) (rhs : scalars) :
  runtime_only (setitem_slice1 t i rhs).
Proof.
  destruct rhs as [x | [| x [| y l]]]; cbn;
    first [apply runtime_Ok | apply runtime_Raise].
Qed.

Lemma runtime_get_origin (h v r : scalars) : runtime_only (get_origin h v r).
Proof.
  unfold get_origin.
  repeat (apply runtime_bind;
          [first [apply runtime_sbin | apply runtime_setitem_slice1] | intros ?]).
  apply runtime_Ok.
Qed.

(** X9: for angles given as a number, a list or a tensor of rank at most
    1 and a radius given as a number or a tensor of rank at most 1,
    [get_origin] returns exactly when each of the three holds one element,
    and then it returns the point of the three elements; every other such
    batch of angles or radii, the empty one included, raises, and always
    the [RuntimeError] of the rejected tensor operation. *)
Theorem get_origin_accepts_single_only (h v r : scalars) :
  ((exists p, get_origin h v r = Ok p) <-> single h /\ single v /\ single r)
  /\ (forall p, get_origin h v r = Ok p ->
        p = spherical_point (the_element h) (the_element v) (the_element r))
  /\ (forall e, get_origin h v r = Raise e -> e = RuntimeError).
Proof.
  assert (Hinv : forall p, get_origin h v r = Ok p ->
                   single h /\ single v /\ single r).
  { intros p H. unfold get_origin in H.
    apply bind_Ok_inv in H as [rs [H1 H]].
    apply bind_Ok_inv in H as [x [H2 H]].
    apply bind_Ok_inv in H as [c [H3 _]].
    apply setitem_slice1_single in H3.
    destruct (sbin_single _ _ _ _ H2 H3) as [Hrs Hpmt].
    destruct (sbin_single _ _ _ _ H1 Hrs) as [Hr Hsin].
    rewrite !single_smap in Hsin. rewrite !single_smap in Hpmt. auto. }
  split; [split |].
  - intros [p H]. exact (Hinv p H).
  - intros [Hh [Hv Hr]]. eexists. apply get_origin_single; assumption.
  - split.
    + intros p H. destruct (Hinv p H) as [Hh [Hv Hr]].
      rewrite get_origin_single in H by assumption. injection H as <-. reflexivity.
    + apply runtime_get_origin.
Qed.

(** ** Out-of-range and non-finite arguments of [get_origin] *)

Lemma fclamp_low (v : R) : v <= eps -> fclamp eps (PI - eps) (Fin v) = Fin eps.
Proof.
  intros H. cbn. f_equal. apply Rclamp_below; [exact H |].
  left. apply eps_lt_PI_minus_eps.
Qed.

Lemma fclamp_high (v : R) :
  PI - eps <= v -> fclamp eps (PI - eps) (Fin v) = Fin (PI - eps).
Proof.
  intros H. cbn. f_equal. apply Rclamp_above; [exact H |].
  left. apply eps_lt_PI_minus_eps.
Qed.

(** X10: the clamp saturates.  Every vertical angle at or below [eps],
    minus infinity included, gives the point of [eps], and every vertical
    angle at or above [pi - eps], plus infinity included, gives the point
    of [pi - eps], whatever the horizontal angle and the radius. *)
Theorem get_origin_clamp_saturates (theta r : fval) (lo hi : R) :
  lo <= eps -> PI - eps <= hi ->
  get_origin (S0 theta) (S0 (Fin lo)) (S0 r)
    = get_origin (S0 theta) (S0 (Fin eps)) (S0 r)
  /\ get_origin (S0 theta) (S0 NInf) (S0 r)
     = get_origin (S0 theta) (S0 (Fin eps)) (S0 r)
  /\ get_origin (S0 theta) (S0 (Fin hi)) (S0 r)
     = get_origin (S0 theta) (S0 (Fin (PI - eps))) (S0 r)
  /\ get_origin (S0 theta) (S0 PInf) (S0 r)
     = get_origin (S0 theta) (S0 (Fin (PI - eps))) (S0 r).
Proof.
  intros Hlo Hhi. pose proof eps_lt_PI_minus_eps as Hlt.
  rewrite !get_origin_scalar. unfold spherical_point.
  rewrite (fclamp_low lo), (fclamp_low eps), (fclamp_high hi),
    (fclamp_high (PI - eps)) by lra.
  cbn [fclamp]. rewrite Rmin_left by lra.
  repeat split; reflexivity.
Qed.

Lemma get_origin_clamp_saturates_witness :
  get_origin (S0 (Fin 0)) (S0 (Fin (-3))) (S0 (Fin 1))
  = get_origin (S0 (Fin 0)) (S0 (Fin eps)) (S0 (Fin 1)).
Proof.
  apply (get_origin_clamp_saturates (Fin 0) (Fin 1) (-3) 4).
  - unfold eps. lra.
  - pose proof PI_4. unfold eps. lra.
Defined.

Lemma fmul_NaN_l (a : fval) : fmul NaN a = NaN.
Proof. reflexivity. Qed.

Lemma fsin_not_finite (a : fval) : (forall x, a <> Fin x) -> fsin a = NaN.
Proof.
  destruct a as [x | | |]; intros H;
    [exfalso; apply (H x); reflexivity | ..]; reflexivity.
Qed.

Lemma fcos_not_finite (a : fval) : (forall x, a <> Fin x) -> fcos a = NaN.
Proof.
  destruct a as [x | | |]; intros H;
    [exfalso; apply (H x); reflexivity | ..]; reflexivity.
Qed.

Lemma fsub_PI_not_finite (a : fval) :
  (forall x, a <> Fin x) -> forall x, fsub (Fin PI) a <> Fin x.
Proof.
  destruct a as [y | | |]; intros H x;
    [exfalso; apply (H y); reflexivity | ..]; unfold fsub; cbn; discriminate.
Qed.

(** X11: [NaN] spreads through [get_origin] without an exception.  A
    [NaN] vertical angle gives a point whose three components are [NaN],
    whatever the horizontal angle and the radius, and so does a [NaN]
    radius, whatever the two angles; a horizontal angle that is [NaN] or
    infinite, with a finite vertical angle and radius, gives [NaN] in the
    x and z components and leaves the height [r (1 - 2 v / pi)] as it
    is. *)
Theorem get_origin_nan (theta v r : fval) (y rr : R) :
  get_origin (S0 theta) (S0 NaN) (S0 r) = Ok [NaN; NaN; NaN]
  /\ get_origin (S0 theta) (S0 v) (S0 NaN) = Ok [NaN; NaN; NaN]
  /\ ((forall x, theta <> Fin x) ->
      get_origin (S0 theta) (S0 (Fin y)) (S0 (Fin rr))
      = Ok [NaN; Fin (rr * (1 - 2 * (rclamp y / PI))); NaN]).
Proof.
  rewrite !get_origin_scalar. unfold spherical_point.
  split; [| split].
  - cbn [fclamp fdiv fmul fsub fneg fadd facos fsin fcos].
    rewrite !fmul_NaN_r. reflexivity.
  - reflexivity.
  - intros Hth.
    cbn [fclamp]. fold (rclamp y). rewrite phi_finite by apply rclamp_bounds.
    rewrite (fsin_not_finite (fsub (Fin PI) theta)),
      (fcos_not_finite (fsub (Fin PI) theta))
      by (apply fsub_PI_not_finite; exact Hth).
    rewrite !fmul_NaN_r. cbn [fcos fmul].
    rewrite cos_acos by apply unit_interval_of_clamp. reflexivity.
Qed.

Lemma get_origin_nan_witness :
  get_origin (S0 (Fin 0)) (S0 (Fin 1)) (S0 NaN) = Ok [NaN; NaN; NaN]
  /\ get_origin (S0 PInf) (S0 (Fin 1)) (S0 (Fin 2))
     = Ok [NaN; Fin (2 * (1 - 2 * (rclamp 1 / PI))); NaN].
Proof.
  split.
  - exact (proj1 (proj2 (get_origin_nan (Fin 0) (Fin 1) NaN 0 0))).
  - apply (proj2 (proj2 (get_origin_nan PInf NaN NaN 1 2))).
    intros x. discriminate.
Defined.

(** ** The batch size of [create_cam2world_matrix] *)

Lemma shape0_normalize_vecs (a : vecs) : shape0 (normalize_vecs a) = shape0 a.
Proof.
  destruct a as [v | rows]; cbn; [apply length_normalize_row | apply length_map].
Qed.

Lemma setitem_block_length (ms ms' : list matrix) (st : stacked) :
  setitem_block ms st = Ok ms' -> length ms' = length ms.
Proof.
  destruct st as [blk | blks]; cbn.
  - destruct (expand_block blk) as [blk' |]; cbn; [| discriminate].
    intros H. injection H as <-. apply length_map.
  - destruct (expand_list blks (length ms)) as [b1 |] eqn:E1; cbn; [| discriminate].
    destruct (mapM expand_block b1) as [b2 |] eqn:E2; cbn; [| discriminate].
    intros H. injection H as <-.
    rewrite length_map, length_combine.
    rewrite (mapM_length _ _ _ E2), (expand_list_length _ _ _ E1).
    apply Nat.min_id.
Qed.

Lemma setitem_col3_length (ms ms' : list matrix) (origin : vecs) :
  setitem_col3 ms origin = Ok ms' -> length ms' = length ms.
Proof.
  destruct origin as [o | os]; cbn.
  - destruct (expand_list o 3) as [o' |]; cbn; [| discriminate].
    intros H. injection H as <-. apply length_map.
  - destruct (expand_list os (length ms)) as [o1 |] eqn:E1; cbn; [| discriminate].
    destruct (mapM (fun o => expand_list o 3) o1) as [o2 |] eqn:E2; cbn;
      [| discriminate].
    intros H. injection H as <-.
    rewrite length_map, length_combine.
    rewrite (mapM_length _ _ _ E2), (expand_list_length _ _ _ E1).
    apply Nat.min_id.
Qed.

Lemma cross_row_Ok_length (a b c : list fval) :
  cross_row a b = Ok c -> length a = 3%nat /\ length b = 3%nat.
Proof.
  unfold cross_row.
  destruct a as [| a1 [| a2 [| a3 [| a4 a]]]]; try discriminate;
    destruct b as [| b1 [| b2 [| b3 [| b4 b]]]]; try discriminate.
  intros _. split; reflexivity.
Qed.

(** X12: whenever [create_cam2world_matrix] returns, the batch size of the
    result is [forward_vector.shape[0]], whatever the shapes of the
    origins and of the up hint; for a forward vector without a batch
    dimension that is its number of components, which must be 3, so the
    result has three matrices. *)
Theorem create_cam2world_matrix_batch_size (forward_vector origin up_vector : vecs)
    (cam2world : list matrix) :
  create_cam2world_matrix forward_vector origin up_vector = Ok cam2world ->
  length cam2world = shape0 forward_vector
  /\ (forall v, forward_vector = V1 v -> length v = 3%nat /\ length cam2world = 3%nat).
Proof.
  intros H. unfold create_cam2world_matrix in H.
  apply bind_Ok_inv in H as [up [Hup H]].
  apply bind_Ok_inv in H as [c [Hc H]].
  apply bind_Ok_inv in H as [c' [Hc' H]].
  apply bind_Ok_inv in H as [st [Hst H]].
  apply bind_Ok_inv in H as [rot [Hrot H]].
  apply bind_Ok_inv in H as [tr [Htr H]].
  destruct (trailing_4x4 (bmm tr rot)); [| discriminate H].
  injection H as <-.
  apply setitem_block_length in Hrot. apply setitem_col3_length in Htr.
  rewrite repeat_length, shape0_normalize_vecs in Hrot, Htr.
  assert (Hlen : length (bmm tr rot) = shape0 forward_vector).
  { unfold bmm. rewrite length_map, length_combine, Hrot, Htr. apply Nat.min_id. }
  split; [exact Hlen |].
  intros v ->. cbn [shape0] in Hlen.
  assert (Hv : length v = 3%nat).
  { cbn [normalize_vecs vmap] in Hup, Hc.
    destruct up_vector as [u | us]; cbn in Hup; [| discriminate Hup].
    destruct (expand_list u (length (normalize_row v))) as [u' |]; cbn in Hup;
      [| discriminate Hup].
    injection Hup as <-. unfold cross in Hc. cbn in Hc.
    destruct (cross_row u' (normalize_row v)) as [x |] eqn:E; [| discriminate Hc].
    apply cross_row_Ok_length in E as [_ E].
    rewrite length_normalize_row in E. exact E. }
  split; [exact Hv | rewrite Hlen; exact Hv].
Qed.

Lemma create_cam2world_matrix_batch_size_witness :
  length [pose_matrix [Fin 0; Fin 0; Fin 1] [Fin 0; Fin 0; Fin 0] [Fin 0; Fin (-1); Fin 0];
          pose_matrix [Fin 0; Fin 0; Fin 1] [Fin 0; Fin 0; Fin 0] [Fin 0; Fin (-1); Fin 0];
          pose_matrix [Fin 0; Fin 0; Fin 1] [Fin 0; Fin 0; Fin 0] [Fin 0; Fin (-1); Fin 0]]
  = shape0 (V1 [Fin 0; Fin 0; Fin 1]).
Proof.
  apply (create_cam2world_matrix_batch_size (V1 [Fin 0; Fin 0; Fin 1])
           (V1 [Fin 0; Fin 0; Fin 0]) default_up_vector).
  apply create_cam2world_matrix_unbatched; reflexivity.
Defined.

(** ** The forward vector of a target *)

Lemma rsub_swap (a b : vec3) : rsub b a = rneg (rsub a b).
Proof.
  destruct a as [[a1 a2] a3], b as [[b1 b2] b3]. cbn.
  f_equal; [f_equal |]; ring.
Qed.

Lemma rnormalize_rneg (a : vec3) : rnormalize (rneg a) = rneg (rnormalize a).
Proof.
  assert (Hn : rnorm (rneg a) = rnorm a)
    by (unfold rnorm; rewrite rdot_rneg_rneg; reflexivity).
  destruct a as [[x y] z]. cbn [rneg] in *. unfold rnormalize. rewrite Hn.
  cbn [rneg]. unfold Rdiv. f_equal; [f_equal |]; ring.
Qed.

(** X13: for a finite target different from the finite origin the forward
    vector [get_forward_vector] returns has norm 1, and exchanging target
    and origin negates it. *)
Theorem get_forward_vector_unit (target origin : vec3) (h v r : scalars) :
  target <> origin ->
  exists n,
    get_forward_vector (V1 (fin3 target)) h v r (Some (V1 (fin3 origin)))
    = Ok (V1 n)
    /\ norm n = Fin 1
    /\ get_forward_vector (V1 (fin3 origin)) h v r (Some (V1 (fin3 target)))
       = Ok (V1 (map fneg n)).
Proof.
  intros Hne.
  assert (Hd : rdot (rsub target origin) (rsub target origin) <> 0).
  { intros Hz. apply Hne. apply rdot_self_zero in Hz.
    destruct target as [[t1 t2] t3], origin as [[o1 o2] o3].
    unfold rsub, zero3 in Hz. injection Hz as H1 H2 H3.
    f_equal; [f_equal |]; lra. }
  rewrite !get_forward_vector_unbatched by (rewrite !length_fin3; reflexivity).
  unfold forward_of. rewrite !row_sub_fin3.
  rewrite (rsub_swap target origin).
  rewrite !normalize_row_fin3
    by (rewrite ?rdot_rneg_rneg; exact Hd).
  eexists. split; [reflexivity |]. split.
  - apply norm_fin3_unit, rnormalize_unit. exact Hd.
  - rewrite rnormalize_rneg, map_fneg_fin3. reflexivity.
Qed.

Lemma get_forward_vector_unit_witness :
  exists n,
    get_forward_vector (V1 (fin3 (0, 0, 0))) (S0 (Fin 0)) (S0 (Fin 1)) (S0 (Fin 1))
      (Some (V1 (fin3 (0, 0, 1)))) = Ok (V1 n)
    /\ norm n = Fin 1
    /\ get_forward_vector (V1 (fin3 (0, 0, 1))) (S0 (Fin 0)) (S0 (Fin 1)) (S0 (Fin 1))
         (Some (V1 (fin3 (0, 0, 0)))) = Ok (V1 (map fneg n)).
Proof.
  apply (get_forward_vector_unit (0, 0, 0) (0, 0, 1)).
  intros H. injection H as H. lra.
Defined.

(** ** A non-finite origin *)

Lemma right_of_finite (f u : vec3) :
  ~ parallel u f -> right_of (fin3 f) (fin3 u) = fin3 (rright f u).
Proof.
  intros H. unfold right_of.
  rewrite normalize_row_fin3 by (apply (forward_nonzero f u); exact H).
  rewrite cross3_fin3, normalize_row_fin3 by (apply hint_cross_nonzero; exact H).
  apply map_fneg_fin3.
Qed.

Lemma up_of_finite (f u : vec3) :
  ~ parallel u f -> up_of (fin3 f) (fin3 u) = fin3 (rup f u).
Proof.
  intros H. unfold up_of. rewrite right_of_finite by exact H.
  rewrite normalize_row_fin3 by (apply (forward_nonzero f u); exact H).
  rewrite cross3_fin3. apply normalize_row_fin3.
  rewrite up_cross_unit by exact H. lra.
Qed.

Lemma fmul_not_finite_zero (a : fval) :
  (forall x, a <> Fin x) -> fmul a (Fin 0) = NaN.
Proof.
  destruct a as [x | | |]; intros H;
    [exfalso; apply (H x); reflexivity | ..]; cbn; unfold inf_of_sign;
    try reflexivity;
    destruct (Req_dec_T 0 0) as [_ | N]; try reflexivity;
    contradiction N; reflexivity.
Qed.

Lemma block_entry_not_finite (a b c : R) (o : fval) :
  (forall x, o <> Fin x) ->
  fadd (Fin a) (fadd (Fin b) (fadd (Fin c) (fadd (fmul o (Fin 0)) (Fin 0)))) = NaN.
Proof. intros H. rewrite fmul_not_finite_zero by exact H. reflexivity. Qed.

Lemma block_entry_finite (a b c x : R) :
  fadd (Fin a) (fadd (Fin b) (fadd (Fin c) (fadd (fmul (Fin x) (Fin 0)) (Fin 0))))
  = Fin (a + b + c).
Proof. cbn [fmul fadd]. f_equal. ring. Qed.

(** X14: the translation is applied by a matrix product, so each
    coordinate of the origin that is infinite or [NaN] turns the
    corresponding row of the rotation block into [NaN] ([inf * 0]),
    although the forward vector and the up hint are finite and not
    parallel; a row whose origin coordinate is finite is the row of the
    basis, and the translation column is the origin as given. *)
Theorem non_finite_origin_spoils_rotation (f u : vec3) (o1 o2 o3 : fval) :
  ~ parallel u f ->
  exists m,
    create_cam2world_matrix (V2 [fin3 f]) (V2 [[o1; o2; o3]]) (V1 (fin3 u))
    = Ok [m]
    /\ translation_column m = [o1; o2; o3]
    /\ (forall i, (i < 3)%nat ->
          ((forall x, nth i [o1; o2; o3] NaN <> Fin x) ->
           nth i (rotation_block m) [] = [NaN; NaN; NaN])
          /\ (forall x, nth i [o1; o2; o3] NaN = Fin x ->
              nth i (rotation_block m) []
              = nth i (rotation_block
                         (homogeneous (rright f u) (rup f u) (rnormalize f) zero3))
                  [])).
Proof.
  intros H.
  rewrite (create_cam2world_matrix_lists [fin3 f] [[o1; o2; o3]] (fin3 u))
    by (try apply length_fin3; try reflexivity; repeat constructor;
        apply length_fin3).
  cbn [combine map fst snd]. eexists. split; [reflexivity |].
  split; [apply translation_column_pose; try apply length_fin3; reflexivity |].
  unfold pose_matrix, rotation_of, translation_of.
  rewrite right_of_finite, up_of_finite by exact H.
  rewrite normalize_row_fin3 by (apply (forward_nonzero f u); exact H).
  destruct (rright f u) as [[r1 r2] r3], (rup f u) as [[p1 p2] p3],
    (rnormalize f) as [[n1 n2] n3].
  unfold rotation_block, matmul, dot, column, fsum, zero3.
  cbn [fin3 homogeneous eye set_col set_block set_prefix zip3 list_set seq map
       firstn hd length combine fold_right fst snd app skipn Nat.eqb].
  cbn [nth fmul].
  intros i Hi.
  destruct i as [| [| [| i]]]; [| | | lia]; cbn [nth]; split.
  - intros Ho. rewrite !block_entry_not_finite by exact Ho. reflexivity.
  - intros x ->. rewrite !block_entry_finite. repeat (f_equal; try ring).
  - intros Ho. rewrite !block_entry_not_finite by exact Ho. reflexivity.
  - intros x ->. rewrite !block_entry_finite. repeat (f_equal; try ring).
  - intros Ho. rewrite !block_entry_not_finite by exact Ho. reflexivity.
  - intros x ->. rewrite !block_entry_finite. repeat (f_equal; try ring).
Qed.

Lemma non_finite_origin_spoils_rotation_witness :
  exists m,
    create_cam2world_matrix (V2 [fin3 (0, 0, -1)]) (V2 [[Fin 0; PInf; NaN]])
      (V1 (fin3 (0, -1, 0))) = Ok [m]
    /\ translation_column m = [Fin 0; PInf; NaN]
    /\ (forall i, (i < 3)%nat ->
          ((forall x, nth i [Fin 0; PInf; NaN] NaN <> Fin x) ->
           nth i (rotation_block m) [] = [NaN; NaN; NaN])
          /\ (forall x, nth i [Fin 0; PInf; NaN] NaN = Fin x ->
              nth i (rotation_block m) []
              = nth i (rotation_block
                         (homogeneous (rright (0, 0, -1) (0, -1, 0))
                            (rup (0, 0, -1) (0, -1, 0))
                            (rnormalize (0, 0, -1)) zero3))
                  [])).
Proof.
  apply (non_finite_origin_spoils_rotation (0, 0, -1) (0, -1, 0) (Fin 0) PInf NaN).
  exact not_parallel_default_up.
Defined.

(** ** Up hints with a batch dimension *)

Lemma create_cam2world_matrix_expanded {X : Type} (l : list X)
    (f u : X -> list fval) (origin up_vector : vecs) :
  (forall x, In x l -> length (f x) = 3%nat /\ length (u x) = 3%nat) ->
  expand_as up_vector (V2 (map (fun x => normalize_row (f x)) l))
  = Ok (V2 (map u l)) ->
  create_cam2world_matrix (V2 (map f l)) origin up_vector
  = (tr <- setitem_col3 (map (fun _ => eye 4) l) origin ;;
     Ok (bmm tr (map (fun x => rotation_of (f x) (u x)) l))).
Proof.
  intros H Hexp. unfold create_cam2world_matrix.
  cbn [normalize_vecs vmap vneg]. rewrite !map_map. rewrite Hexp.
  cbn [bind].
  rewrite (cross_rows l u (fun x => normalize_row (f x)))
    by (intros x Hx; destruct (H x Hx); split;
        [| rewrite length_normalize_row]; assumption).
  cbn [bind vmap vneg normalize_vecs]. rewrite !map_map.
  change (fun x : X => map fneg (normalize_row (cross3 (u x) (normalize_row (f x)))))
    with (fun x : X => right_of (f x) (u x)).
  rewrite (cross_rows l (fun x => normalize_row (f x))
             (fun x => right_of (f x) (u x)))
    by (intros x Hx; destruct (H x Hx); split;
        [rewrite length_normalize_row | apply length_right_of]; assumption).
  cbn [bind vmap vneg normalize_vecs stack shape0]. rewrite !map_map, length_map.
  change (fun x : X =>
            normalize_row (cross3 (normalize_row (f x)) (right_of (f x) (u x))))
    with (fun x : X => up_of (f x) (u x)).
  assert (H3 : forall x, In x l ->
            length (right_of (f x) (u x)) = 3%nat
            /\ length (up_of (f x) (u x)) = 3%nat
            /\ length (normalize_row (f x)) = 3%nat).
  { intros x Hx. destruct (H x Hx).
    repeat split;
      [apply length_right_of | apply length_up_of | rewrite length_normalize_row];
      assumption. }
  rewrite (stack_rows_map l (fun x => right_of (f x) (u x))
             (fun x => up_of (f x) (u x)) (fun x => normalize_row (f x)))
    by exact H3.
  cbn [bind]. rewrite repeat_map_const.
  rewrite (setitem_block_map l (fun _ => eye 4) (fun x => right_of (f x) (u x))
             (fun x => up_of (f x) (u x)) (fun x => normalize_row (f x)))
    by exact H3.
  cbn [bind].
  change (fun x : X =>
            set_block
              (zip3 (right_of (f x) (u x)) (up_of (f x) (u x)) (normalize_row (f x)))
              (eye 4))
    with (fun x : X => rotation_of (f x) (u x)).
  destruct (setitem_col3 (map (fun _ => eye 4) l) origin) as [tr |] eqn:Etr;
    cbn [bind]; [| reflexivity].
  assert (Hb : trailing_4x4 (bmm tr (map (fun x => rotation_of (f x) (u x)) l))
               = true).
  { apply trailing_4x4_spec, bmm_4x4.
    - eapply setitem_col3_4x4; [| exact Etr].
      apply Forall_map, Forall_forall. intros x _. apply is_4x4_eye.
    - apply Forall_map, Forall_forall. intros x _. apply is_4x4_rotation_of. }
  rewrite Hb. reflexivity.
Qed.

Lemma expand_as_per_row {X : Type} (l : list X) (u g : X -> list fval) :
  (forall x, In x l -> length (u x) = length (g x)) ->
  expand_as (V2 (map u l)) (V2 (map g l)) = Ok (V2 (map u l)).
Proof.
  intros H. cbn [expand_as].
  rewrite expand_list_same by (rewrite !length_map; reflexivity). cbn [bind].
  rewrite combine_map_same, (mapM_map_Ok _ (fun p => fst p)).
  - cbn [bind]. rewrite map_map. reflexivity.
  - intros p Hp. apply in_map_iff in Hp as [x [<- Hx]]. cbn [fst snd].
    apply expand_list_same. apply H. exact Hx.
Qed.

Lemma expand_list_singleton {A : Type} (x : A) (n : nat) :
  expand_list [x] n = Ok (repeat x n).
Proof.
  unfold expand_list. cbn [length].
  destruct (Nat.eqb 1 n) eqn:E; [| reflexivity].
  apply Nat.eqb_eq in E. subst n. reflexivity.
Qed.

Lemma expand_as_one_row {X : Type} (l : list X) (u : list fval)
    (g : X -> list fval) :
  (forall x, In x l -> length (g x) = length u) ->
  expand_as (V2 [u]) (V2 (map g l)) = Ok (V2 (map (fun _ => u) l)).
Proof.
  intros H. cbn [expand_as]. rewrite expand_list_singleton. cbn [bind].
  rewrite length_map, repeat_map_const, combine_map_same.
  rewrite (mapM_map_Ok _ (fun p => fst p)).
  - cbn [bind]. rewrite map_map. reflexivity.
  - intros p Hp. apply in_map_iff in Hp as [x [<- Hx]]. cbn [fst snd].
    apply expand_list_same. symmetry. apply H. exact Hx.
Qed.

(** X15: the up hint may carry a batch dimension.  With one up hint per
    forward vector, matrix [b] of the result is the pose of forward vector
    [b], origin [b] and up hint [b]; an up hint of shape (1, 3) gives what
    the same hint of shape (3,) gives. *)
Theorem create_cam2world_matrix_up_hints (l : list (vec3 * vec3 * vec3))
    (u : list fval) :
  length u = 3%nat ->
  create_cam2world_matrix
    (V2 (map (fun p => fin3 (fst (fst p))) l))
    (V2 (map (fun p => fin3 (snd (fst p))) l))
    (V2 (map (fun p => fin3 (snd p)) l))
  = Ok (map (fun p => pose_matrix (fin3 (fst (fst p))) (fin3 (snd (fst p)))
                        (fin3 (snd p))) l)
  /\ create_cam2world_matrix
       (V2 (map (fun p => fin3 (fst (fst p))) l))
       (V2 (map (fun p => fin3 (snd (fst p))) l)) (V2 [u])
     = create_cam2world_matrix
         (V2 (map (fun p => fin3 (fst (fst p))) l))
         (V2 (map (fun p => fin3 (snd (fst p))) l)) (V1 u).
Proof.
  intros Hu. split.
  - rewrite (create_cam2world_matrix_expanded l (fun p => fin3 (fst (fst p)))
               (fun p => fin3 (snd p))).
    + rewrite setitem_col3_map by (intros; apply length_fin3).
      cbn [bind]. rewrite bmm_map. reflexivity.
    + intros p _. split; apply length_fin3.
    + apply expand_as_per_row. intros p _.
      rewrite length_normalize_row, !length_fin3. reflexivity.
  - rewrite (create_cam2world_matrix_expanded l (fun p => fin3 (fst (fst p)))
               (fun _ => u)).
    + rewrite create_cam2world_matrix_rows
        by (try exact Hu; intros; apply length_fin3).
      reflexivity.
    + intros p _. split; [apply length_fin3 | exact Hu].
    + apply expand_as_one_row. intros p _.
      rewrite length_normalize_row, length_fin3, Hu. reflexivity.
Qed.

Lemma create_cam2world_matrix_up_hints_witness :
  create_cam2world_matrix (V2 [fin3 (0, 0, -1)]) (V2 [fin3 (0, 0, 1)])
    (V2 [fin3 (0, -1, 0)])
  = Ok [pose_matrix (fin3 (0, 0, -1)) (fin3 (0, 0, 1)) (fin3 (0, -1, 0))].
Proof.
  apply (create_cam2world_matrix_up_hints [((0, 0, -1), (0, 0, 1), (0, -1, 0))]
           [Fin 0; Fin (-1); Fin 0]).
  reflexivity.
Defined.

(** ** The handedness of the basis, as cross products *)

Lemma rcross_triple_inner (a b : vec3) :
  rcross a (rcross b a)
  = rsub (rscale (rdot a a) b) (rscale (rdot a b) a).
Proof.
  destruct a as [[a1 a2] a3], b as [[b1 b2] b3]. cbn.
  f_equal; [f_equal |]; ring.
Qed.

Lemma rcross_triple_outer (a b : vec3) :
  rcross (rcross a b) a
  = rsub (rscale (rdot a a) b) (rscale (rdot a b) a).
Proof.
  destruct a as [[a1 a2] a3], b as [[b1 b2] b3]. cbn.
  f_equal; [f_equal |]; ring.
Qed.

Lemma rsub_unit_perp (a b : vec3) : rsub (rscale 1 b) (rscale 0 a) = b.
Proof.
  destruct a as [[a1 a2] a3], b as [[b1 b2] b3]. cbn.
  f_equal; [f_equal |]; ring.
Qed.

(** X16: the columns of the rotation block follow the right-hand rule in
    the order (right, up, forward): for finite, non-degenerate arguments
    right x up = forward, up x forward = right and forward x right = up. *)
Theorem basis_cross_products (f o u : vec3) :
  ~ parallel u f ->
  exists m right up forward,
    create_cam2world_matrix (V2 [fin3 f]) (V2 [fin3 o]) (V1 (fin3 u)) = Ok [m]
    /\ column 0 (rotation_block m) = fin3 right
    /\ column 1 (rotation_block m) = fin3 up
    /\ column 2 (rotation_block m) = fin3 forward
    /\ rcross right up = forward
    /\ rcross up forward = right
    /\ rcross forward right = up.
Proof.
  intros H.
  pose proof (create_cam2world_matrix_finite [(f, o)] u) as Hc.
  cbn [map fst snd] in Hc. rewrite Hc, pose_matrix_finite by exact H.
  destruct (rotation_block_homogeneous (rright f u) (rup f u) (rnormalize f) o)
    as [H0 [H1 H2]].
  exists (homogeneous (rright f u) (rup f u) (rnormalize f) o),
    (rright f u), (rup f u), (rnormalize f).
  split; [reflexivity |]. split; [exact H0 |]. split; [exact H1 |].
  split; [exact H2 |].
  rewrite rup_cross by exact H.
  pose proof (right_unit f u H) as Hr.
  pose proof (forward_unit f u H) as Hn.
  pose proof (right_forward_perp f u) as Hp.
  repeat split.
  - rewrite rcross_triple_inner, Hr, Hp. apply rsub_unit_perp.
  - rewrite rcross_triple_outer, Hn, rdot_comm, Hp. apply rsub_unit_perp.
Qed.

Lemma basis_cross_products_witness :
  exists m right up forward,
    create_cam2world_matrix (V2 [fin3 (0, 0, -1)]) (V2 [fin3 (0, 0, 1)])
      (V1 (fin3 (0, -1, 0))) = Ok [m]
    /\ column 0 (rotation_block m) = fin3 right
    /\ column 1 (rotation_block m) = fin3 up
    /\ column 2 (rotation_block m) = fin3 forward
    /\ rcross right up = forward
    /\ rcross up forward = right
    /\ rcross forward right = up.
Proof.
  apply (basis_cross_products (0, 0, -1) (0, 0, 1) (0, -1, 0)).
  exact not_parallel_default_up.
Defined.
